(** * Domain naming: signing, verification and path resolution

    A shallow embedding of the [Domain] / [Name] classes (the file that
    defines [NameMixin], [Name] and [Domain]) together with the few
    JavaScript built-ins they rely on: [String.prototype.split],
    [Array.prototype.join], [pop], [unshift], [filter], [some], [includes]
    and [JSON.stringify] on the object literal built by [_signable]. *)

From Stdlib Require Import Ascii String.
From Equations Require Import Equations.
From stdpp Require Import gmap strings list.


(** ** JavaScript strings and arrays *)

Module JS.

(** [s.split(sep)] for a one-character separator: the result always has
    at least one element, and [split sep EmptyString] is the one-element
    array holding the empty string. *)
Fixpoint split (sep : ascii) (s : string) : list string :=
  match s with
  | EmptyString => [EmptyString]
  | String c s' =>
      if Ascii.eqb c sep then EmptyString :: split sep s'
      else match split sep s' with
           | x :: xs => String c x :: xs
           | [] => [String c EmptyString]
           end
  end.

(** [arr.join(sep)]. *)
Fixpoint join (sep : string) (arr : list string) : string :=
  match arr with
  | [] => EmptyString
  | [x] => x
  | x :: xs => x +:+ sep +:+ join sep xs
  end.

(** [arr.pop()] on the non-empty array [x :: xs]: the array it leaves, and
    the element it returns. *)
Definition pop {A} (x : A) (xs : list A) : list A * A :=
  (removelast (x :: xs), List.last xs x).

(** [arr.unshift(x)]. *)
Definition unshift {A} (x : A) (arr : list A) : list A := x :: arr.

(** [arr.includes(x)] on an array of strings. *)
Definition includes (arr : list string) (x : string) : bool :=
  bool_decide (x ∈ arr).

(** [arr.some(f)]. *)
Definition some {A} (f : A → bool) (arr : list A) : bool := existsb f arr.

(** [s.includes(c)] for a character. *)
Fixpoint has_char (c : ascii) (s : string) : bool :=
  match s with
  | EmptyString => false
  | String c' s' => Ascii.eqb c' c || has_char c s'
  end.

End JS.

Definition slash : ascii := "/"%char.

(** A path segment: a string without the separator. *)
Definition no_slash (s : string) : Prop := JS.has_char slash s = false.

#[global] Instance no_slash_dec s : Decision (no_slash s).
Proof. unfold no_slash. apply _. Defined.

(** ** [JSON.stringify] on the values [_signable] serialises

    [_signable] serialises one object literal whose property values are
    strings, arrays of strings, a [Date] (serialised through [toJSON] as its
    ISO text, so a date is carried as that text) or [undefined].  A property
    whose value is [undefined] is left out of the output. *)

Module JSON.

Definition dquote : ascii := "034"%char.
Definition backslash : ascii := "\"%char.

Definition hex_digit (n : N) : ascii :=
  if (n <? 10)%N then ascii_of_N (48 + n) else ascii_of_N (87 + n).

(** The escape of one character inside a JSON string literal. *)
Definition escape_char (c : ascii) : string :=
  let n := N_of_ascii c in
  if (n =? 34)%N then String backslash (String dquote EmptyString)
  else if (n =? 92)%N then String backslash (String backslash EmptyString)
  else if (n =? 8)%N then "\b"
  else if (n =? 9)%N then "\t"
  else if (n =? 10)%N then "\n"
  else if (n =? 12)%N then "\f"
  else if (n =? 13)%N then "\r"
  else if (n <? 32)%N then
    "\u00" +:+ String (hex_digit (n / 16)) (String (hex_digit (n mod 16)) EmptyString)
  else String c EmptyString.

Fixpoint escape (s : string) : string :=
  match s with
  | EmptyString => EmptyString
  | String c s' => escape_char c +:+ escape s'
  end.

Definition quote (s : string) : string :=
  String dquote (escape s +:+ String dquote EmptyString).

Inductive value :=
| Undefined
| Str (s : string)
| Strs (arr : list string).

Definition of_option_str (o : option string) : value :=
  match o with Some s => Str s | None => Undefined end.

Definition of_option_strs (o : option (list string)) : value :=
  match o with Some l => Strs l | None => Undefined end.

Definition array (arr : list string) : string :=
  "[" +:+ JS.join "," (quote <$> arr) +:+ "]".

Definition serialize (v : value) : option string :=
  match v with
  | Undefined => None
  | Str s => Some (quote s)
  | Strs arr => Some (array arr)
  end.

Definition member (kv : string * value) : option string :=
  (λ t, quote kv.1 +:+ ":" +:+ t) <$> serialize kv.2.

(** [JSON.stringify] of an object literal given as its properties in
    insertion order. *)
Definition stringify (props : list (string * value)) : string :=
  "{" +:+ JS.join "," (omap member props) +:+ "}".

(** Every character, and the check that the escapes form a prefix code:
    each escape is non-empty and opens with something other than a double
    quote, and none is a prefix of the escape of another character. *)
Definition all_ascii : list ascii := ascii_of_nat <$> seq 0 256.

Definition opens_with_other (c : ascii) (s : string) : bool :=
  match s with
  | String c' _ => negb (Ascii.eqb c' c)
  | EmptyString => false
  end.

Definition escape_table : list (ascii * string) :=
  (λ c, (c, escape_char c)) <$> all_ascii.

Definition is_prefix_code (table : list (ascii * string)) : bool :=
  forallb (λ ce : ascii * string,
    opens_with_other dquote ce.2
    && forallb (λ ce' : ascii * string,
                  implb (String.prefix ce.2 ce'.2) (Ascii.eqb ce.1 ce'.1))
         table)
    table.

End JSON.

(** ** The key-pair collaborator *)

(** Modelled from the spec: the key-pair signer/verifier ([Dweb.KeyPair], used
    through [this.keypair.sign], [this.keypair.signingexport] and
    [new Dweb.KeyPair({key}).verify]) is a collaborator that is not part of
    these sources; the spec gives its interface as
    [sign(payload) -> signature], [verify(publicKey, payload, signature) -> bool]
    and [exportPublicKey() -> string]. *)
Class KeyPairOps := {
  KeyPair : Type;
  signingexport : KeyPair → string;
  kp_sign : KeyPair → string → string;
  kp_verify : string → string → string → bool;
}.

(** Modelled from the spec: [sign] and [verify] of the collaborator are a
    pair, so a signature made by a key pair verifies under the public key
    that pair exports. [Domain.p_register] relies on it when it asserts
    [verify] right after [sign]. *)
Class KeyPairCorrect `{KeyPairOps} :=
  sign_then_verify : ∀ (kp : KeyPair) (payload : string),
    kp_verify (signingexport kp) payload (kp_sign kp payload) = true.

(** Modelled from the spec: cryptographic verification, idealised: a
    signature verifies on no payload other than the one that was signed. *)
Class KeyPairBinding `{KeyPairOps} :=
  verify_binds_payload : ∀ (kp : KeyPair) (payload payload' : string),
    kp_verify (signingexport kp) payload' (kp_sign kp payload) = true →
    payload' = payload.

(** A toy instance, used to run the model on concrete inputs: the private
    material is a string, it is exported unchanged, and a signature is the
    key followed by [:] and the payload. *)
Definition toy_sign (k payload : string) : string := k +:+ ":" +:+ payload.

Definition toy_keypair : KeyPairOps := {|
  KeyPair := string;
  signingexport := λ k, k;
  kp_sign := toy_sign;
  kp_verify := λ pk payload sig, bool_decide (sig = toy_sign pk payload);
|}.

(** ** Objects, the heap and effects *)

(** Objects are held by reference: a [Domain]'s [_map] points at its
    children, and [sign] and [p_set] mutate the objects they are given. *)
Abbreviation loc := positive.

Inductive error :=
| TypeError (msg : string).

(** How a call ends: it returns, it throws, or the model ran out of levels
    of recursion ([p_resolve_terminates] shows that [p_resolve] never
    does). *)
Inductive completion (A : Type) :=
| Return (a : A)
| Throw (e : error)
| OutOfFuel.
Arguments Return {A} a.
Arguments Throw {A} e.
Arguments OutOfFuel {A}.

(** One entry of [signatures]: [{date, signature, signedby}]. *)
Record Signature := {
  date : string;
  signature : string;
  signedby : string;
}.

(** The fields [NameMixin] names, shared by [Name] and [Domain]. *)
Record NameFields := {
  fullnames : list string;
  _publicurls : option (list string);
  expires : option string;
  signatures : list Signature;
}.

Inductive event :=
| ConsoleLog (args : list string)
| AssertionFailed
| TableGet (table : loc) (key : string)
| TransportSet (urls : list string) (name : string) (value : loc).

Section Domain.
Context `{KeyPairOps}.

(** The fields a [Domain] adds: [keys], the key pair of a master copy, the
    table [_map] inherited from [KeyValueTable] and its [_autoset] / [_urls].
    [keys] is [None] ([undefined]) on a domain made from data without that
    field: the constructor does not set it, and [Domain.p_new] fills it in
    only on a master copy that has a key pair. *)
Record DomainFields := {
  keys : option (list string);
  keypair : option KeyPair;
  _map : gmap string loc;
  _autoset : bool;
  _urls : list string;
}.

Inductive obj :=
| Name (n : NameFields)
| Domain (n : NameFields) (d : DomainFields).

Definition name_fields (o : obj) : NameFields :=
  match o with Name n => n | Domain n _ => n end.

(** [this.keys]: [undefined] on a [Name], and on a [Domain] without keys. *)
Definition obj_keys (o : obj) : option (list string) :=
  match o with Name _ => None | Domain _ d => keys d end.

Record world := {
  heap : gmap loc obj;
  trace : list event;
}.

Definition M (A : Type) : Type := world → completion A * world.

#[global] Instance M_ret : MRet M := λ A a w, (Return a, w).

#[global] Instance M_bind : MBind M := λ A B f m w,
  match m w with
  | (Return a, w') => f a w'
  | (Throw e, w') => (Throw e, w')
  | (OutOfFuel, w') => (OutOfFuel, w')
  end.

Definition throw {A} (e : error) : M A := λ w, (Throw e, w).

(** A computation that reads and writes nothing ends as [c] does. *)
Definition complete {A} (c : completion A) : M A := λ w, (c, w).

Definition emit (e : event) : M unit := λ w,
  (Return (), {| heap := heap w; trace := trace w ++ [e] |}).

Definition store (l : loc) (o : obj) : M unit := λ w,
  (Return (), {| heap := <[l := o]> (heap w); trace := trace w |}).

Definition alloc (o : obj) : M loc := λ w,
  let l := fresh (dom (heap w)) in
  (Return l, {| heap := <[l := o]> (heap w); trace := trace w |}).

(** Reading an object through a reference to use it as a [Name] or
    [Domain]. A location that holds no object stands for [undefined], on
    which every property access throws. *)
Definition load (l : loc) : M obj := λ w,
  match heap w !! l with
  | Some o => (Return o, w)
  | None => (Throw (TypeError "undefined"), w)
  end.

(** Reading [this] inside a method that only [Domain] has. *)
Definition load_domain (l : loc) (method : string) : M (NameFields * DomainFields) :=
  o ← load l;
  match o with
  | Domain n d => mret (n, d)
  | Name _ => throw (TypeError (method +:+ " is not a function"))
  end.

Definition console_log (args : list string) : M unit := emit (ConsoleLog args).

(** [console.assert(b)] reports a failed assertion and carries on. *)
Definition console_assert (b : bool) : M unit :=
  if b then mret () else emit AssertionFailed.

(** ** NameMixin *)

Definition _signable (this : obj) (domains : list string) (name : string)
    (date : string) : string :=
  JSON.stringify [("date", JSON.Str date);
                  ("domains", JSON.Strs domains);
                  ("name", JSON.Str name);
                  ("keys", JSON.of_option_strs (obj_keys this));
                  ("_publicurls", JSON.of_option_strs (_publicurls (name_fields this)));
                  ("expires", JSON.of_option_str (expires (name_fields this)))].

(** [subdomain.signatures.push(sig)]. *)
Definition push_signature (sig : Signature) (o : obj) : obj :=
  let n := name_fields o in
  let n' := {| fullnames := fullnames n; _publicurls := _publicurls n;
               expires := expires n; signatures := signatures n ++ [sig] |} in
  match o with
  | Name _ => Name n'
  | Domain _ d => Domain n' d
  end.

(** ** Domain: signing and verification *)

(** The signature [sign] appends: the payload is the subdomain's
    [_signable] under this domain's [fullnames]. *)
Definition make_signature (kp : KeyPair) (domains : list string) (name : string)
    (subdomain : obj) (date : string) : Signature :=
  {| date := date;
     signature := kp_sign kp (_signable subdomain domains name date);
     signedby := signingexport kp |}.

(** [sign(name, subdomain)]; [now] is the value of [new Date(Date.now())]. *)
Definition sign (this : loc) (name : string) (subdomain : loc) (now : string)
    : M unit :=
  '(n, d) ← load_domain this "sign";
  sub ← load subdomain;
  match keypair d with
  | None => throw (TypeError "keypair is undefined")
  | Some kp =>
      store subdomain
        (push_signature (make_signature kp (fullnames n) name sub now) sub)
  end.

(** [this.keys.includes(x)]: reading [includes] of [undefined] throws. *)
Definition keys_includes (d : DomainFields) (x : string) : completion bool :=
  match keys d with
  | Some ks => Return (JS.includes ks x)
  | None =>
      Throw (TypeError "Cannot read properties of undefined (reading 'includes')")
  end.

(** [l.filter(f)] with a callback that may throw: [f] is called on each
    entry in order, and not at all on an empty array. *)
Fixpoint filter_throwing {A} (f : A → completion bool) (l : list A)
    : completion (list A) :=
  match l with
  | [] => Return []
  | x :: l' =>
      match f x with
      | Return b =>
          match filter_throwing f l' with
          | Return kept => Return (if b then x :: kept else kept)
          | Throw e => Throw e
          | OutOfFuel => OutOfFuel
          end
      | Throw e => Throw e
      | OutOfFuel => OutOfFuel
      end
  end.

(** The body of [verify(name, subdomain)] on the two objects it reads. *)
Definition verify_signatures (n : NameFields) (d : DomainFields)
    (name : string) (subdomain : obj) : completion bool :=
  match filter_throwing (λ sig, keys_includes d (signedby sig))
          (signatures (name_fields subdomain)) with
  | Return trusted =>
      Return (JS.some
                (λ sig, kp_verify (signedby sig)
                          (_signable subdomain (fullnames n) name (date sig))
                          (signature sig))
                trusted)
  | Throw e => Throw e
  | OutOfFuel => OutOfFuel
  end.

Definition verify (this : loc) (name : string) (subdomain : loc) : M bool :=
  '(n, d) ← load_domain this "verify";
  sub ← load subdomain;
  complete (verify_signatures n d name sub).

(** ** Domain: the table *)

(** Modelled from the spec: fetch-normalisation ([SmartDict._after_fetch],
    not part of these sources) returns the concrete typed record for a
    fetched value; on a value that is already a [Name] or [Domain] it is
    that same object. *)
Definition _after_fetch (value : loc) : M loc := mret value.

(** Modelled from the spec: the table read ([KeyValueTable.p_get], not part
    of these sources) is [get(key) -> Record-or-absent] on the domain's child
    mapping. *)
Definition table_get (m : gmap string loc) (key : string) : option loc := m !! key.

(** [p_set(name, value)]: the transport write is started and not awaited. *)
Definition p_set (this : loc) (name : string) (value : loc) : M unit :=
  '(n, d) ← load_domain this "p_set";
  (if _autoset d then emit (TransportSet (_urls d) name value) else mret ());;
  value' ← _after_fetch value;
  '(n, d) ← load_domain this "p_set";
  store this
    (Domain n {| keys := keys d; keypair := keypair d;
                 _map := <[name := value']> (_map d);
                 _autoset := _autoset d; _urls := _urls d |}).

(** What [p_register] is given: a [Domain] or [Name], or something else that
    has [_publicurls] or [_urls]. *)
Inductive registrable :=
| Record_ (r : loc)
| Stored (publicurls urls : option (list string)).

(** [registrable._publicurls || registrable._urls] (an array is truthy). *)
Definition or_urls (publicurls urls : option (list string)) : option (list string) :=
  match publicurls with Some u => Some u | None => urls end.

Definition p_register (this : loc) (name : string) (r : registrable)
    (now : string) : M unit :=
  r' ← match r with
       | Record_ l => mret l
       | Stored publicurls urls =>
           '(n, _) ← load_domain this "p_register";
           alloc (Name {| fullnames := (λ fn, JS.join "/" [fn; name]) <$> fullnames n;
                          _publicurls := or_urls publicurls urls;
                          expires := None;
                          signatures := [] |})
       end;
  sign this name r' now;;
  ok ← verify this name r';
  console_assert ok;;
  p_set this name r'.

(** ** Domain: resolution *)

(** The [while] loop of [p_resolve]: [gets] accumulates the keys handed to
    [p_get], in order.  The result is [res], the final [remainder] and the
    keys looked up. *)
Equations? lookup_loop (m : gmap string loc) (pathArray remainder gets : list string)
  : option loc * list string * list string by wf (length pathArray) lt :=
lookup_loop m [] remainder gets := (None, remainder, gets);
lookup_loop m (s :: segs) remainder gets
  with table_get m (JS.join "/" (s :: segs)) => {
  | Some res := (Some res, remainder, gets ++ [JS.join "/" (s :: segs)]);
  | None := lookup_loop m (JS.pop s segs).1
              (JS.unshift (JS.pop s segs).2 remainder)
              (gets ++ [JS.join "/" (s :: segs)]) }.
Proof.
  clear lookup_loop. unfold JS.pop. cbn [fst]. revert s.
  induction segs as [|s' segs IH]; intros s; cbn; [lia|].
  specialize (IH s'). cbn in IH. lia.
Qed.

(** The key looked up after [i] misses: the first [N - i] segments. *)
Definition candidate (segs : list string) (i : nat) : string :=
  JS.join "/" (take (length segs - i) segs).

(** The world after more events. *)
Definition with_trace (w : world) (evs : list event) : world :=
  {| heap := heap w; trace := trace w ++ evs |}.

Fixpoint p_resolve_fuel (fuel : nat) (this : loc) (path : string)
    (verbose : bool) : M (option loc) :=
  match fuel with
  | 0 => λ w, (OutOfFuel, w)
  | S fuel' =>
      '(n, d) ← load_domain this "p_resolve";
      (if verbose
       then console_log ["resolving"; path; "in"; JS.join ", " (fullnames n)]
       else mret ());;
      let pathArray := JS.split slash path in
      let '(res, remainder, gets) := lookup_loop (_map d) pathArray [] [] in
      (λ w, (Return (), {| heap := heap w;
                           trace := trace w ++ (TableGet this <$> gets) |}));;
      match res with
      | Some res =>
          res ← _after_fetch res;
          match remainder with
          | [] => mret (Some res)
          | _ :: _ => p_resolve_fuel fuel' res (JS.join "/" remainder) verbose
          end
      | None =>
          console_log ["Unable to completely resolve"; path; "in";
                       JS.join ", " (fullnames n)];;
          mret None
      end
  end.

(** Each recursive call resolves a path with fewer segments, so as many
    levels as the path has segments are enough. *)
Definition p_resolve (this : loc) (path : string) (verbose : bool)
    : M (option loc) :=
  p_resolve_fuel (length (JS.split slash path)) this path verbose.

End Domain.

(** ** Reference descriptions and sample worlds *)

Section Reference.
Context `{KeyPairOps}.

(** Descending by hand: resolve [prefix] in [root], then [rest] in the record
    that gives. *)
Definition descend (root : loc) (prefix rest : string) (verbose : bool)
    : M (option loc) :=
  r ← p_resolve root prefix verbose;
  match r with
  | Some x => p_resolve x rest verbose
  | None => mret None
  end.

(** The record [p_register] signs and stores: the one it is given, or the
    [Name] it wraps around something else (a new object). *)
Definition registered (w : world) (r : registrable) : loc :=
  match r with
  | Record_ l => l
  | Stored _ _ => fresh (dom (heap w))
  end.

(** [o'] is [o] after registrations: the signatures [added] were appended,
    a domain's table may have changed, and nothing else has. *)
Definition evolves (added : list Signature) (o o' : obj) : Prop :=
  fullnames (name_fields o') = fullnames (name_fields o)
  ∧ _publicurls (name_fields o') = _publicurls (name_fields o)
  ∧ expires (name_fields o') = expires (name_fields o)
  ∧ signatures (name_fields o') = signatures (name_fields o) ++ added
  ∧ match o, o' with
    | Name _, Name _ => True
    | Domain _ d, Domain _ d' =>
        keys d' = keys d ∧ keypair d' = keypair d
        ∧ _autoset d' = _autoset d ∧ _urls d' = _urls d
    | _, _ => False
    end.

(** What [verify] returns on a domain whose [keys] is the array [ks]: some
    signature by one of these keys verifies on the payload recomputed under
    the domain's [fullnames]. *)
Definition verifies (n : NameFields) (ks : list string) (name : string)
    (subdomain : obj) : bool :=
  JS.some
    (λ sig, kp_verify (signedby sig)
              (_signable subdomain (fullnames n) name (date sig))
              (signature sig))
    (List.filter (λ sig, JS.includes ks (signedby sig))
       (signatures (name_fields subdomain))).

(** Every signature on [sub] by one of the keys [trusted] is one that [sign]
    makes for [sub] under [name], by a domain whose [fullnames] is [domains]
    at that time. *)
Definition signed_under (trusted domains : list string) (name : string)
    (sub : obj) : Prop :=
  Forall (λ sig, signedby sig ∈ trusted →
                 ∃ kp, sig = make_signature kp domains name sub (date sig))
    (signatures (name_fields sub)).

(** Renaming a domain: the assignment [this.fullnames = domains]. *)
Definition set_fullnames (this : loc) (domains : list string) : M unit :=
  '(n, d) ← load_domain this "fullnames";
  store this (Domain {| fullnames := domains; _publicurls := _publicurls n;
                        expires := expires n; signatures := signatures n |} d).

(** The child a domain holds under [key], if any. *)
Definition child_of (w : world) (this : loc) (key : string) : option loc :=
  match heap w !! this with
  | Some (Domain _ d) => table_get (_map d) key
  | _ => None
  end.

End Reference.


Module Examples.

#[local] Existing Instance toy_keypair.

Definition new_name (fullname : string) (urls : list string) : @obj toy_keypair :=
  Name {| fullnames := [fullname]; _publicurls := Some urls;
          expires := None; signatures := [] |}.

(** The mixin fields of a domain that nobody has signed yet. *)
Definition unsigned (fullname : string) : NameFields :=
  {| fullnames := [fullname]; _publicurls := None;
     expires := None; signatures := [] |}.

(** A master copy of a domain, as [Domain.p_new] leaves it: [keys] holds the
    exported key of its key pair. *)
Definition master (key : string) (children : gmap string loc)
    : @DomainFields toy_keypair :=
  {| keys := Some [key]; keypair := Some key; _map := children;
     _autoset := false; _urls := [] |}.

Definition new_domain (fullname key : string) (children : gmap string loc)
    : @obj toy_keypair :=
  Domain (unsigned fullname) (master key children).

(** A root with no children. *)
Definition w_root : @world toy_keypair :=
  {| heap := {[ 1%positive := new_domain "/" "kroot" ∅ ]}; trace := [] |}.

(** A root with one child [a]. *)
Definition w_child : @world toy_keypair :=
  {| heap := {[ 1%positive := new_domain "/" "kroot" {[ "a" := 2%positive ]};
                2%positive := new_name "/a" ["loc://a"] ]};
     trace := [] |}.

(** Four unregistered objects: a root, a domain and two names. *)
Definition w_fresh : @world toy_keypair :=
  {| heap := {[ 1%positive := new_domain "/" "kroot" ∅;
                2%positive := new_domain "/a/b" "kab" ∅;
                3%positive := new_name "/a/b/c" ["loc://c"];
                4%positive := new_name "/a/b/c" ["loc://other"] ]};
     trace := [] |}.

(** A name signed for [item] by the root while its name was [/]. *)
Definition signed_item : @obj toy_keypair :=
  push_signature
    (make_signature (H:=toy_keypair) "kroot" ["/"] "item"
       (new_name "/item" ["loc://item"]) "2018-01-01T00:00:00.000Z")
    (new_name "/item" ["loc://item"]).

(** That name under the root that signed it, and under the same root after
    its [fullnames] has changed. *)
Definition w_signed : @world toy_keypair :=
  {| heap := {[ 1%positive := new_domain "/" "kroot" {[ "item" := 2%positive ]};
                2%positive := signed_item ]};
     trace := [] |}.


(** A domain made by the constructor from data without [keys] (it is
    [Domain.p_new] that fills them in), holding that signed name. *)
Definition no_keys (children : gmap string loc) : @DomainFields toy_keypair :=
  {| keys := None; keypair := Some "kroot"; _map := children;
     _autoset := false; _urls := [] |}.

Definition w_no_keys : @world toy_keypair :=
  {| heap := {[ 1%positive := Domain (unsigned "/") (no_keys {[ "item" := 2%positive ]});
                2%positive := signed_item ]};
     trace := [] |}.

(** [a/b] registered under the root and [c] beneath it. *)
Definition w_nested : @world toy_keypair :=
  {| heap := {[ 1%positive := new_domain "/" "kroot" {[ "a/b" := 2%positive ]};
                2%positive := new_domain "/a/b" "kab" {[ "c" := 3%positive ]};
                3%positive := new_name "/a/b/c" ["loc://c"] ]};
     trace := [] |}.

(** Three registrations on the fresh objects: [a/b] under the root, [c]
    beneath it, and the whole key [a/b/c] under the root as well. *)
Definition w_shadow : @world toy_keypair :=
  ((p_register 1 "a/b" (Record_ 2) "2018-01-01T00:00:00.000Z";;
    p_register 2 "c" (Record_ 3) "2018-01-02T00:00:00.000Z";;
    p_register 1 "a/b/c" (Record_ 4) "2018-01-03T00:00:00.000Z") w_fresh).2.

End Examples.

(** ** The rest of the sources *)

(** The utility functions. *)
Module utils.

(** What [intersects] is given as [b]: an array, or something that is not
    one ([Array.isArray(b)]). *)
Inductive needle :=
| Many (b : list string)
| One (b : string).

(** [utils.intersects(a, b)]. *)
Definition intersects (a : list string) (b : needle) : bool :=
  match b with
  | Many b => JS.some (λ x, JS.includes b x) a
  | One b => JS.includes a b
  end.

(** The names of the properties a plain object inherits from
    [Object.prototype]. *)
Definition prototype_names : list string :=
  ["constructor"; "hasOwnProperty"; "isPrototypeOf"; "propertyIsEnumerable";
   "toLocaleString"; "toString"; "valueOf"; "__proto__";
   "__defineGetter__"; "__defineSetter__";
   "__lookupGetter__"; "__lookupSetter__"].

(** A plain object: its own data properties, with [Object.prototype], as
    the language defines it, for prototype. It has no own property named
    [__proto__] (an object literal or an assignment does not make one). *)
Record plain_object (V : Type) := {
  properties : gmap string V;
  no_own_proto : properties !! "__proto__" = None;
}.
Arguments properties {V} _.
Arguments no_own_proto {V} _.

(** What a property read gives: the value of an own property, what the
    property of that name inherited from [Object.prototype] gives, or
    [undefined]. *)
Inductive read (V : Type) :=
| Own (v : V)
| Inherited (name : string)
| Undefined.
Arguments Own {V} v.
Arguments Inherited {V} name.
Arguments Undefined {V}.

(** [dic[key]]: an own property first, then the prototype. *)
Definition get {V} (dic : plain_object V) (key : string) : read V :=
  match properties dic !! key with
  | Some v => Own v
  | None =>
      if bool_decide (key ∈ prototype_names) then Inherited key else Undefined
  end.

(** [prev[key] = x] on the object that [reduce] builds from [{}]: the
    property is made or overwritten, whatever [x] is. Under [__proto__] the
    assignment goes to the setter of [Object.prototype] and makes no
    property; what it is given there is [Object.prototype], which is the
    prototype already. *)
Definition put {V} (prev : gmap string (read V)) (key : string) (x : read V)
    : gmap string (read V) :=
  if bool_decide (key = "__proto__") then prev else <[key := x]> prev.

(** [utils.keyFilter(dic, keys)]: [reduce] over [keys] from the empty
    object; the result is given by its own properties. *)
Definition keyFilter {V} (dic : plain_object V) (keys : list string)
    : gmap string (read V) :=
  foldl (λ prev key, put prev key (get dic key)) ∅ keys.

(** Typed arrays of the integer kinds whose elements are Numbers: the
    constructor and the elements. The kinds of floating-point and of
    [BigInt] elements are left out. *)
Inductive kind :=
| Int8Array
| Uint8Array
| Uint8ClampedArray
| Int16Array
| Uint16Array
| Int32Array
| Uint32Array.

Definition bits (k : kind) : Z :=
  match k with
  | Int8Array | Uint8Array | Uint8ClampedArray => 8
  | Int16Array | Uint16Array => 16
  | Int32Array | Uint32Array => 32
  end.

Definition signed (k : kind) : bool :=
  match k with
  | Int8Array | Int16Array | Int32Array => true
  | Uint8Array | Uint8ClampedArray | Uint16Array | Uint32Array => false
  end.

(** The least element a kind holds, and the first integer it does not. *)
Definition lower (k : kind) : Z :=
  if signed k then (- 2 ^ (bits k - 1))%Z else 0%Z.

Definition upper (k : kind) : Z :=
  if signed k then (2 ^ (bits k - 1))%Z else (2 ^ bits k)%Z.

Record TypedArray := {
  constructor : kind;
  elements : list Z;
}.

(** The conversion a typed array applies to an integer stored in it:
    [Uint8ClampedArray] clamps to [0..255]; the others reduce modulo
    [2 ^ bits], and the [Int] kinds then read the upper half of that range
    as negative. *)
Definition to_element (k : kind) (x : Z) : Z :=
  match k with
  | Uint8ClampedArray => Z.max 0 (Z.min 255 x)
  | _ =>
      let m := (x mod 2 ^ bits k)%Z in
      if signed k && (2 ^ (bits k - 1) <=? m)%Z then (m - 2 ^ bits k)%Z else m
  end.

(** Every element is one the array's kind can hold. *)
Definition well_formed (a : TypedArray) : Prop :=
  Forall (λ x, (lower (constructor a) ≤ x < upper (constructor a))%Z)
    (elements a).

Inductive outcome (A : Type) :=
| Done (a : A)
| RangeError.
Arguments Done {A} a.
Arguments RangeError {A}.

(** [new a.constructor(n)]: [n] zeros. *)
Definition new_array (k : kind) (n : nat) : TypedArray :=
  {| constructor := k; elements := replicate n 0%Z |}.

(** [c.set(src, offset)]: the source must fit. *)
Definition set (c src : TypedArray) (offset : nat) : outcome TypedArray :=
  if decide (offset + length (elements src) ≤ length (elements c))
  then Done {| constructor := constructor c;
               elements := list_inserts offset
                             (to_element (constructor c) <$> elements src)
                             (elements c) |}
  else RangeError.

(** [utils.mergeTypedArraysUnsafe(a, b)]. *)
Definition mergeTypedArraysUnsafe (a b : TypedArray) : outcome TypedArray :=
  let c := new_array (constructor a)
             (length (elements a) + length (elements b)) in
  match set c a 0 with
  | Done c =>
      match set c b (length (elements a)) with
      | Done c => Done c
      | RangeError => RangeError
      end
  | RangeError => RangeError
  end.

End utils.

Section More.
Context `{KeyPairOps}.

(** The end of [Domain.p_new], on the object [super.p_new] returned: a master
    copy that has a key pair and no keys ([keys] undefined or empty) gets the
    exported key of the pair as its only key. *)
Definition p_new_keys (_master : bool) (d : DomainFields) : DomainFields :=
  match _master, keypair d, keys d with
  | true, Some kp, (None | Some []) =>
      {| keys := Some [signingexport kp]; keypair := keypair d; _map := _map d;
         _autoset := _autoset d; _urls := _urls d |}
  | _, _, _ => d
  end.

(** Every signature on [sub] by one of the keys [trusted] is one that [sign]
    made, under [name] and [domains], when the record was [signed]. *)
Definition signed_as (trusted domains : list string) (name : string)
    (signed sub : obj) : Prop :=
  Forall (λ sig, signedby sig ∈ trusted →
                 ∃ kp, sig = make_signature kp domains name signed (date sig))
    (signatures (name_fields sub)).

End More.

(** What follows the first property of an object: the other properties, a
    comma before each, and the closing brace. *)
Fixpoint members_tail (members : list string) : string :=
  match members with
  | [] => "}"
  | m :: members => "," +:+ m +:+ members_tail members
  end.

(** What follows the first element of an array: the other elements, a comma
    before each, the closing bracket, and the rest of the text [t]. *)
Fixpoint items_tail (items : list string) (t : string) : string :=
  match items with
  | [] => "]" +:+ t
  | x :: items => "," +:+ JSON.quote x +:+ items_tail items t
  end.

Module MoreExamples.

#[local] Existing Instance toy_keypair.

(** What [super.p_new] returns for a master root made with a pass phrase and
    [keys: []], before [Domain.p_new] looks at the keys. *)
Definition keyless : @DomainFields toy_keypair :=
  {| keys := Some []; keypair := Some "kroot"; _map := ∅;
     _autoset := false; _urls := [] |}.

(** That root once [Domain.p_new] is done, and a record to register. *)
Definition w_new : @world toy_keypair :=
  {| heap := {[ 1%positive := Domain (Examples.unsigned "/") (p_new_keys true keyless);
                2%positive := Examples.new_name "/item" ["loc://item"] ]};
     trace := [] |}.

(** A public copy of a root: the keys, and no key pair. *)
Definition public : @DomainFields toy_keypair :=
  {| keys := Some ["kroot"]; keypair := None; _map := ∅;
     _autoset := false; _urls := [] |}.

Definition w_public : @world toy_keypair :=
  {| heap := {[ 1%positive := Domain (Examples.unsigned "/") public;
                2%positive := Examples.new_name "/item" ["loc://item"] ]};
     trace := [] |}.

Definition bytes (l : list Z) : utils.TypedArray :=
  {| utils.constructor := utils.Uint8Array; utils.elements := l |}.

(** The object [{a: 1}]. *)
Definition dic_a : utils.plain_object Z :=
  {| utils.properties := {[ "a" := 1%Z ]}; utils.no_own_proto := eq_refl |}.

End MoreExamples.

(** The table reads among some events. *)
Definition is_table_get (e : event) : bool :=
  match e with TableGet _ _ => true | _ => false end.

Definition table_gets (evs : list event) : nat :=
  length (List.filter is_table_get evs).

(** [1 + 2 + ... + n]. *)
Fixpoint triangle (n : nat) : nat :=
  match n with
  | 0 => 0
  | S n' => S n' + triangle n'
  end.

(** * Properties *)

(** ** Strings: [split] and [join] *)

Lemma str_app_cons (c : ascii) (s t : string) : String c s +:+ t = String c (s +:+ t).
Proof. reflexivity. Qed.

Lemma str_app_nil_r (s : string) : s +:+ "" = s.
Proof. induction s as [|c s IH]; [done|]. by rewrite str_app_cons, IH. Qed.

Lemma str_app_assoc (s t u : string) : (s +:+ t) +:+ u = s +:+ t +:+ u.
Proof. induction s as [|c s IH]; [done|]. by rewrite !str_app_cons, IH. Qed.

Lemma str_length_app (s t : string) :
  String.length (s +:+ t) = String.length s + String.length t.
Proof. induction s as [|c s IH]; [done|]. rewrite str_app_cons. cbn. by rewrite IH. Qed.

Lemma str_app_inv_tail (s t u : string) : s +:+ u = t +:+ u → s = t.
Proof.
  intros Heq.
  assert (Hlen : String.length s = String.length t).
  { apply (f_equal String.length) in Heq.
    rewrite !str_length_app in Heq. lia. }
  revert t Heq Hlen. induction s as [|c s IH]; intros [|c' t] Heq Hlen;
    try done.
  rewrite !str_app_cons in Heq. injection Heq as -> Heq.
  f_equal. apply IH; [done|]. by injection Hlen.
Qed.

Lemma split_not_nil (sep : ascii) (s : string) : JS.split sep s ≠ [].
Proof.
  destruct s as [|c s]; cbn; [done|].
  destruct (Ascii.eqb c sep); [done|]. by destruct (JS.split sep s).
Qed.

Lemma split_length_pos (sep : ascii) (s : string) : 0 < length (JS.split sep s).
Proof.
  pose proof (split_not_nil sep s). destruct (JS.split sep s); [done|cbn; lia].
Qed.

Lemma join_cons_cons (sep x y : string) (l : list string) :
  JS.join sep (x :: y :: l) = x +:+ sep +:+ JS.join sep (y :: l).
Proof. reflexivity. Qed.

(** Joining the segments of a path gives the path back. *)
Lemma join_split (s : string) : JS.join "/" (JS.split slash s) = s.
Proof.
  induction s as [|c s IH]; [done|]. cbn [JS.split].
  pose proof (split_not_nil slash s) as Hne.
  destruct (Ascii.eqb c slash) eqn:Hc.
  - apply Ascii.eqb_eq in Hc as ->.
    destruct (JS.split slash s) as [|x xs]; [done|].
    rewrite join_cons_cons, IH. reflexivity.
  - destruct (JS.split slash s) as [|x xs]; [done|].
    destruct xs as [|y xs].
    + cbn in *. by rewrite IH.
    + rewrite join_cons_cons, str_app_cons, <- join_cons_cons. by rewrite IH.
Qed.

Lemma split_no_slash (s : string) : no_slash s → JS.split slash s = [s].
Proof.
  unfold no_slash. induction s as [|c s IH]; [done|]. cbn.
  intros [Hc Hs]%orb_false_iff. rewrite Hc, (IH Hs). reflexivity.
Qed.

Lemma split_no_slash_app (x t : string) :
  no_slash x → JS.split slash (x +:+ "/" +:+ t) = x :: JS.split slash t.
Proof.
  unfold no_slash. induction x as [|c x IH].
  - intros _. reflexivity.
  - cbn [JS.has_char]. intros [Hc Hx]%orb_false_iff.
    rewrite str_app_cons. cbn [JS.split]. rewrite Hc, (IH Hx). reflexivity.
Qed.

(** Every segment [split] produces is free of the separator. *)
Lemma split_segments_no_slash (s : string) : Forall no_slash (JS.split slash s).
Proof.
  induction s as [|c s IH]; [by repeat constructor|]. cbn [JS.split].
  destruct (Ascii.eqb c slash) eqn:Hc.
  - constructor; [done|exact IH].
  - destruct (JS.split slash s) as [|x xs]; [repeat constructor|].
    + unfold no_slash. cbn. by rewrite Hc.
    + inversion IH as [|?? Hx Hxs]; subst. constructor; [|done].
      unfold no_slash in *. cbn. by rewrite Hc, Hx.
Qed.

(** Splitting the join of separator-free segments gives the segments back. *)
Lemma split_join (l : list string) :
  l ≠ [] → Forall no_slash l → JS.split slash (JS.join "/" l) = l.
Proof.
  induction l as [|x l IH]; [done|]. intros _ Hall.
  inversion Hall as [|?? Hx Hl]; subst.
  destruct l as [|y l].
  - cbn. by apply split_no_slash.
  - rewrite join_cons_cons, split_no_slash_app by done.
    f_equal. by apply IH.
Qed.

(** ** The lookup loop *)

Lemma lookup_loop_nil m remainder gets :
  lookup_loop m [] remainder gets = (None, remainder, gets).
Proof. by simp lookup_loop. Qed.

Lemma removelast_snoc {A} (l : list A) (x : A) : removelast (l ++ [x]) = l.
Proof. by rewrite removelast_app, app_nil_r. Qed.

Lemma last_cons_snoc {A} (l init : list A) (s x : A) :
  s :: l = init ++ [x] → List.last l s = x.
Proof.
  intros Heq.
  assert (List.last l s = List.last (s :: l) s) as -> by (by destruct l).
  by rewrite Heq, last_last.
Qed.

(** A hit ends the loop: the remainder is left as it is. *)
Lemma lookup_loop_hit m pathArray remainder gets res :
  pathArray ≠ [] →
  table_get m (JS.join "/" pathArray) = Some res →
  lookup_loop m pathArray remainder gets
  = (Some res, remainder, gets ++ [JS.join "/" pathArray]).
Proof.
  destruct pathArray as [|s segs]; [done|]. intros _ Hget.
  simp lookup_loop. rewrite Hget. by simp lookup_loop.
Qed.

(** A miss moves exactly the last segment of the candidate to the front of
    the remainder and goes round again. *)
Lemma lookup_loop_miss m init x remainder gets :
  table_get m (JS.join "/" (init ++ [x])) = None →
  lookup_loop m (init ++ [x]) remainder gets
  = lookup_loop m init (x :: remainder) (gets ++ [JS.join "/" (init ++ [x])]).
Proof.
  intros Hget. destruct (init ++ [x]) as [|s segs] eqn:Heq.
  { by destruct init. }
  simp lookup_loop. rewrite Hget. simp lookup_loop.
  unfold JS.pop, JS.unshift. cbn [fst snd].
  rewrite (last_cons_snoc _ _ _ _ (eq_sym Heq)), <- Heq, removelast_snoc.
  reflexivity.
Qed.

Lemma candidate_0 segs : candidate segs 0 = JS.join "/" segs.
Proof. unfold candidate. by rewrite Nat.sub_0_r, firstn_all. Qed.

Lemma candidate_snoc_S init x i :
  candidate (init ++ [x]) (S i) = candidate init i.
Proof.
  unfold candidate. rewrite length_app. cbn [length].
  replace (length init + 1 - S i) with (length init - i) by lia.
  by rewrite take_app_le by lia.
Qed.

Lemma candidates_snoc init x k :
  candidate (init ++ [x]) <$> seq 0 (S k)
  = JS.join "/" (init ++ [x]) :: (candidate init <$> seq 0 k).
Proof.
  cbn [seq fmap list_fmap]. rewrite candidate_0. f_equal.
  rewrite <- seq_shift, <- list_fmap_compose.
  apply list_fmap_ext. intros _ i _. cbn. apply candidate_snoc_S.
Qed.

(** What the loop computes, from any starting state. *)
Lemma lookup_loop_spec m pathArray remainder gets :
  let N := length pathArray in
  (∃ j res, j < N ∧
     (∀ i, i < j → table_get m (candidate pathArray i) = None) ∧
     table_get m (candidate pathArray j) = Some res ∧
     lookup_loop m pathArray remainder gets
     = (Some res, drop (N - j) pathArray ++ remainder,
        gets ++ (candidate pathArray <$> seq 0 (S j))))
  ∨ ((∀ i, i < N → table_get m (candidate pathArray i) = None) ∧
     lookup_loop m pathArray remainder gets
     = (None, pathArray ++ remainder,
        gets ++ (candidate pathArray <$> seq 0 N))).
Proof.
  revert remainder gets.
  induction pathArray as [|x init IH] using rev_ind; intros remainder gets N.
  { right. split; [cbn; lia|]. rewrite lookup_loop_nil. cbn. by rewrite app_nil_r. }
  subst N. rewrite length_app. cbn [length].
  destruct (table_get m (JS.join "/" (init ++ [x]))) as [res|] eqn:Hget.
  - left. exists 0, res. split; [lia|]. split; [lia|].
    rewrite candidate_0. split; [done|].
    rewrite (lookup_loop_hit _ _ _ _ res) by (done || by destruct init).
    rewrite drop_ge by (rewrite length_app; cbn; lia).
    cbn. by rewrite candidate_0.
  - rewrite lookup_loop_miss by done.
    destruct (IH (x :: remainder) (gets ++ [JS.join "/" (init ++ [x])]))
      as [(j & res & Hj & Hmiss & Hhit & ->)|[Hmiss ->]].
    + left. exists (S j), res. split; [lia|]. split; [|split].
      * intros [|i] Hi; [by rewrite candidate_0|].
        rewrite candidate_snoc_S. apply Hmiss. lia.
      * by rewrite candidate_snoc_S.
      * rewrite (candidates_snoc _ _ (S j)).
        replace (length init + 1 - S j) with (length init - j) by lia.
        rewrite drop_app_le by lia. rewrite <- !app_assoc. reflexivity.
    + right. split.
      * intros [|i] Hi; [by rewrite candidate_0|].
        rewrite candidate_snoc_S. apply Hmiss. lia.
      * replace (length init + 1) with (S (length init)) by lia.
        rewrite candidates_snoc, <- !app_assoc. reflexivity.
Qed.

(** C4. One level of the resolution loop on a path of [N] segments hands at
    most [N] keys to the table; the keys are the candidate prefixes, the
    whole path first and one segment shorter after each miss; a miss moves
    exactly the last segment of the candidate to the front of the remainder;
    and the loop ends, with a hit on the last key tried and the segments
    dropped so far as remainder, or with no hit after all [N] prefixes. *)
Theorem lookup_loop_at_most_N_lookups (m : gmap string loc) (path : string) :
  let segs := JS.split slash path in
  let N := length segs in
  (∀ init x remainder gets,
     table_get m (JS.join "/" (init ++ [x])) = None →
     lookup_loop m (init ++ [x]) remainder gets
     = lookup_loop m init (JS.unshift x remainder)
         (gets ++ [JS.join "/" (init ++ [x])]))
  ∧ ∃ res remainder gets,
      lookup_loop m segs [] [] = (res, remainder, gets)
      ∧ 1 ≤ length gets ≤ N
      ∧ gets = candidate segs <$> seq 0 (length gets)
      ∧ head gets = Some path
      ∧ match res with
        | Some r =>
            table_get m (candidate segs (length gets - 1)) = Some r
            ∧ remainder = drop (N - (length gets - 1)) segs
        | None => length gets = N ∧ remainder = segs
        end.
Proof.
  intros segs N. split; [intros; by apply lookup_loop_miss|].
  pose proof (split_length_pos slash path) as Hpos. fold segs N in Hpos.
  destruct (lookup_loop_spec m segs [] [])
    as [(j & res & Hj & _ & Hhit & Heq)|[_ Heq]]; cbn zeta in *; subst N.
  - exists (Some res), (drop (length segs - j) segs),
      (candidate segs <$> seq 0 (S j)).
    rewrite app_nil_r in Heq. rewrite length_fmap, length_seq.
    replace (S j - 1) with j by lia.
    repeat split; try done; try lia.
    cbn. rewrite candidate_0. unfold segs. by rewrite join_split.
  - exists None, segs, (candidate segs <$> seq 0 (length segs)).
    rewrite app_nil_r in Heq. rewrite length_fmap, length_seq.
    repeat split; try done; try lia.
    destruct (length segs) as [|N']; [lia|].
    cbn. rewrite candidate_0. unfold segs. by rewrite join_split.
Qed.

(** ** Running the methods *)

Section Run.
Context `{KeyPairOps}.

Lemma with_trace_nil w : with_trace w [] = w.
Proof. destruct w. unfold with_trace. cbn. by rewrite app_nil_r. Qed.

Lemma with_trace_app w evs evs' :
  with_trace (with_trace w evs) evs' = with_trace w (evs ++ evs').
Proof. unfold with_trace. cbn. by rewrite app_assoc. Qed.

Lemma load_domain_ok l method w n d :
  heap w !! l = Some (Domain n d) →
  load_domain l method w = (Return (n, d), w).
Proof.
  intros Hl. unfold load_domain, load, mbind, M_bind. by rewrite Hl.
Qed.

(** One level of [p_resolve] on a domain. *)
Lemma p_resolve_fuel_level fuel this path verbose w n d :
  heap w !! this = Some (Domain n d) →
  p_resolve_fuel (S fuel) this path verbose w
  = let '(res, remainder, gets) :=
      lookup_loop (_map d) (JS.split slash path) [] [] in
    let w' := with_trace w
      ((if verbose
        then [ConsoleLog ["resolving"; path; "in"; JS.join ", " (fullnames n)]]
        else []) ++ (TableGet this <$> gets)) in
    match res with
    | Some r =>
        match remainder with
        | [] => (Return (Some r), w')
        | _ :: _ => p_resolve_fuel fuel r (JS.join "/" remainder) verbose w'
        end
    | None =>
        (Return None,
         with_trace w' [ConsoleLog ["Unable to completely resolve"; path; "in";
                                    JS.join ", " (fullnames n)]])
    end.
Proof.
  intros Hthis. cbn [p_resolve_fuel]. unfold mbind at 1, M_bind at 1.
  rewrite (load_domain_ok _ _ _ n d Hthis).
  destruct (lookup_loop (_map d) (JS.split slash path) [] [])
    as [[res remainder] gets].
  unfold with_trace.
  destruct verbose, res as [r|], remainder as [|s remainder];
    unfold mbind, M_bind, mret, M_ret, console_log, emit, _after_fetch;
    cbn [heap trace app]; rewrite <- ?app_assoc, ?app_nil_r; reflexivity.
Qed.

Lemma p_resolve_fuel_not_domain fuel this path verbose w :
  (∀ n d, heap w !! this ≠ Some (Domain n d)) →
  ∃ e, p_resolve_fuel (S fuel) this path verbose w = (Throw e, w).
Proof.
  intros Hthis. cbn [p_resolve_fuel].
  unfold mbind at 1, M_bind at 1, load_domain, load, mbind, M_bind.
  destruct (heap w !! this) as [[n|n d]|] eqn:Hl; [| |]; cbn; eauto.
  by destruct (Hthis n d).
Qed.

(** Every prefix misses: the result is [undefined], after one lookup per
    prefix and the diagnostic. *)
Lemma p_resolve_fuel_all_miss fuel this path verbose w n d :
  heap w !! this = Some (Domain n d) →
  (∀ i, i < length (JS.split slash path) →
        table_get (_map d) (candidate (JS.split slash path) i) = None) →
  p_resolve_fuel (S fuel) this path verbose w
  = (Return None,
     with_trace w
       ((if verbose
         then [ConsoleLog ["resolving"; path; "in"; JS.join ", " (fullnames n)]]
         else [])
        ++ (TableGet this <$>
              (candidate (JS.split slash path)
                 <$> seq 0 (length (JS.split slash path))))
        ++ [ConsoleLog ["Unable to completely resolve"; path; "in";
                        JS.join ", " (fullnames n)]])).
Proof.
  intros Hthis Hmiss. rewrite (p_resolve_fuel_level _ _ _ _ _ n d Hthis).
  destruct (lookup_loop_spec (_map d) (JS.split slash path) [] [])
    as [(j & res & Hj & _ & Hhit & _)|[_ ->]]; cbn zeta in *.
  - rewrite Hmiss in Hhit by done. discriminate.
  - cbn [app]. by rewrite with_trace_app, <- app_assoc.
Qed.

(** [p_resolve] never runs out of levels. *)
Lemma p_resolve_fuel_enough fuel this path verbose w :
  length (JS.split slash path) ≤ fuel →
  (p_resolve_fuel fuel this path verbose w).1 ≠ OutOfFuel.
Proof.
  revert this path w. induction fuel as [|fuel IH]; intros this path w Hlen.
  { pose proof (split_length_pos slash path). lia. }
  destruct (heap w !! this) as [[n|n d]|] eqn:Hthis.
  - destruct (p_resolve_fuel_not_domain fuel this path verbose w) as [e ->];
      [congruence|done].
  - rewrite (p_resolve_fuel_level _ _ _ _ _ n d Hthis).
    destruct (lookup_loop_spec (_map d) (JS.split slash path) [] [])
      as [(j & res & Hj & _ & _ & ->)|[_ ->]]; cbn zeta in *; [|done].
    rewrite app_nil_r.
    destruct (drop _ _) as [|s remainder] eqn:Hdrop; [done|].
    apply IH. rewrite split_join; [| done |].
    + apply (f_equal length) in Hdrop. rewrite length_drop in Hdrop.
      rewrite <- Hdrop. lia.
    + rewrite <- Hdrop. apply Forall_drop, split_segments_no_slash.
  - destruct (p_resolve_fuel_not_domain fuel this path verbose w) as [e ->];
      [congruence|done].
Qed.

Lemma p_resolve_terminates this path verbose w :
  (p_resolve this path verbose w).1 ≠ OutOfFuel.
Proof. by apply p_resolve_fuel_enough. Qed.

(** A one-segment array is looked up once. *)
Lemma lookup_loop_single m x :
  lookup_loop m [x] [] []
  = (table_get m x, match table_get m x with Some _ => [] | None => [x] end, [x]).
Proof.
  destruct (table_get m x) as [r|] eqn:Hget.
  - by rewrite (lookup_loop_hit _ _ _ _ r).
  - rewrite (lookup_loop_miss m [] x) by done. by rewrite lookup_loop_nil.
Qed.

Lemma p_resolve_fuel_on_other fuel this path verbose w :
  (∀ n d, heap w !! this ≠ Some (Domain n d)) →
  p_resolve_fuel (S fuel) this path verbose w
  = (Throw (TypeError match heap w !! this with
                      | Some _ => "p_resolve is not a function"
                      | None => "undefined"
                      end), w).
Proof.
  intros Hthis. cbn [p_resolve_fuel].
  unfold mbind at 1, M_bind at 1, load_domain, load, mbind, M_bind.
  destruct (heap w !! this) as [[n|n d]|] eqn:Hl; [done| |done].
  by destruct (Hthis n d).
Qed.

(** More levels than the path has segments change nothing. *)
Lemma p_resolve_fuel_more fuel fuel' this path verbose w :
  length (JS.split slash path) ≤ fuel →
  length (JS.split slash path) ≤ fuel' →
  p_resolve_fuel fuel this path verbose w
  = p_resolve_fuel fuel' this path verbose w.
Proof.
  revert fuel' this path w.
  induction fuel as [|fuel IH]; intros [|fuel'] this path w Hlen Hlen';
    try (pose proof (split_length_pos slash path); lia).
  destruct (heap w !! this) as [[n|n d]|] eqn:Hthis.
  1, 3: by rewrite !p_resolve_fuel_on_other by congruence.
  rewrite !(p_resolve_fuel_level _ _ _ _ _ n d Hthis).
  destruct (lookup_loop_spec (_map d) (JS.split slash path) [] [])
    as [(j & res & Hj & _ & _ & ->)|[_ ->]]; cbn zeta in *; [|done].
  rewrite app_nil_r.
  destruct (drop _ _) as [|s remainder] eqn:Hdrop; [done|].
  assert (length (JS.split slash (JS.join "/" (s :: remainder))) = j) as Hrem.
  { rewrite split_join; [| done |].
    - rewrite <- Hdrop, length_drop. lia.
    - rewrite <- Hdrop. apply Forall_drop, split_segments_no_slash. }
  apply IH; lia.
Qed.


End Run.

(** ** Resolution *)

Section Resolution.
Context `{KeyPairOps}.

(** C5. When no prefix of the path, of any length, is a child key of the
    domain, [p_resolve] returns [undefined] (it does not throw), and the last
    thing it does is log a diagnostic carrying the attempted path and the
    domain's [fullnames]. *)
Theorem p_resolve_no_match_undefined w this n d path verbose :
  heap w !! this = Some (Domain n d) →
  (∀ k, 1 ≤ k ≤ length (JS.split slash path) →
        table_get (_map d) (JS.join "/" (take k (JS.split slash path))) = None) →
  ∃ evs,
    p_resolve this path verbose w
    = (Return None,
       with_trace w
         (evs ++ [ConsoleLog ["Unable to completely resolve"; path; "in";
                              JS.join ", " (fullnames n)]])).
Proof.
  intros Hthis Hmiss. unfold p_resolve.
  pose proof (split_length_pos slash path) as Hpos.
  destruct (length (JS.split slash path)) as [|fuel] eqn:Hlen; [lia|].
  rewrite (p_resolve_fuel_all_miss _ _ _ _ _ n d Hthis).
  - eexists. rewrite app_assoc. reflexivity.
  - intros i Hi. unfold candidate. apply Hmiss. lia.
Qed.

(** C6, as the code has it. Resolving the empty path on a domain looks up
    the empty key in the domain's table: the result is the child registered
    under the empty key, and [undefined] when there is none. *)
Theorem p_resolve_empty_path w this n d verbose :
  heap w !! this = Some (Domain n d) →
  (p_resolve this "" verbose w).1 = Return (table_get (_map d) "").
Proof.
  intros Hthis. unfold p_resolve. cbn [JS.split length].
  rewrite (p_resolve_fuel_level _ _ _ _ _ n d Hthis). cbn [JS.split].
  rewrite lookup_loop_single. by destruct (table_get (_map d) "").
Qed.

Lemma split_leading_slash p :
  JS.split slash ("/" +:+ p) = "" :: JS.split slash p.
Proof. reflexivity. Qed.



(** C2, as the code has it. For a three-segment path [a/b/c]: when [a/b]
    is registered under the root as a domain, [c] is registered beneath that
    domain, and the whole key [a/b/c] is not itself registered under the
    root, resolving [a/b/c] in the root returns the record that resolving
    [a/b] in the root and then [c] in the result returns. *)
Theorem p_resolve_descends w root nr dr a b c x nx dx verbose :
  no_slash a → no_slash b → no_slash c →
  heap w !! root = Some (Domain nr dr) →
  table_get (_map dr) (JS.join "/" [a; b]) = Some x →
  heap w !! x = Some (Domain nx dx) →
  is_Some (table_get (_map dx) c) →
  table_get (_map dr) (JS.join "/" [a; b; c]) = None →
  (p_resolve root (JS.join "/" [a; b; c]) verbose w).1
  = (descend root (JS.join "/" [a; b]) c verbose w).1
  ∧ (p_resolve root (JS.join "/" [a; b; c]) verbose w).1
    = Return (table_get (_map dx) c).
Proof.
  intros Ha Hb Hc Hroot Hab Hx [y Hy] Habc.
  assert (Hlevel_c : ∀ fuel w', heap w' = heap w →
            (p_resolve_fuel (S fuel) x c verbose w').1 = Return (Some y)).
  { intros fuel w' Hw'.
    rewrite (p_resolve_fuel_level _ _ _ _ _ nx dx) by (by rewrite Hw').
    rewrite (split_no_slash c Hc), lookup_loop_single, Hy. reflexivity. }
  assert (Hfull : (p_resolve root (JS.join "/" [a; b; c]) verbose w).1
                  = Return (Some y)).
  { unfold p_resolve. rewrite split_join by (done || by repeat constructor).
    cbn [length]. rewrite (p_resolve_fuel_level _ _ _ _ _ nr dr Hroot).
    rewrite split_join by (done || by repeat constructor).
    rewrite (lookup_loop_miss _ [a; b] c) by done.
    rewrite (lookup_loop_hit _ [a; b] _ _ x) by done.
    cbn [JS.join]. by apply Hlevel_c. }
  split; [|by rewrite Hfull, Hy].
  rewrite Hfull. unfold descend, mbind, M_bind.
  assert (Hprefix : ∃ w', heap w' = heap w ∧
            p_resolve root (JS.join "/" [a; b]) verbose w = (Return (Some x), w')).
  { unfold p_resolve. rewrite split_join by (done || by repeat constructor).
    cbn [length]. rewrite (p_resolve_fuel_level _ _ _ _ _ nr dr Hroot).
    rewrite split_join by (done || by repeat constructor).
    rewrite (lookup_loop_hit _ [a; b] _ _ x) by done.
    eexists. split; [|reflexivity]. reflexivity. }
  destruct Hprefix as (w' & Hw' & ->).
  unfold p_resolve. rewrite (split_no_slash c Hc). cbn [length].
  symmetry. by apply Hlevel_c.
Qed.

End Resolution.

(** *** Resolution on sample worlds *)

Lemma p_resolve_no_match_undefined_witness :
  ∃ evs,
    p_resolve (H:=toy_keypair) 1 "x/y" false Examples.w_child
    = (Return None,
       with_trace Examples.w_child
         (evs ++ [ConsoleLog ["Unable to completely resolve"; "x/y"; "in"; "/"]])).
Proof.
  refine (p_resolve_no_match_undefined (H:=toy_keypair) Examples.w_child 1
            (Examples.unsigned "/") (Examples.master "kroot" {[ "a" := 2%positive ]})
            "x/y" false _ _).
  - reflexivity.
  - intros k Hk. cbn in Hk.
    assert (k = 1 ∨ k = 2) as [-> | ->] by lia; reflexivity.
Defined.

(** The empty path on a root without children gives [undefined], not the
    root. *)
Lemma p_resolve_empty_path_not_self :
  (p_resolve (H:=toy_keypair) 1 "" false Examples.w_root).1 = Return None
  ∧ (p_resolve (H:=toy_keypair) 1 "" false Examples.w_root).1
    ≠ Return (Some 1%positive).
Proof. split; [by vm_compute|]. vm_compute. discriminate. Qed.

Lemma p_resolve_empty_path_witness :
  (p_resolve (H:=toy_keypair) 1 "" false Examples.w_root).1
  = Return (table_get (∅ : gmap string loc) "").
Proof.
  refine (p_resolve_empty_path (H:=toy_keypair) Examples.w_root 1
            (Examples.unsigned "/") (Examples.master "kroot" ∅)
            false _).
  reflexivity.
Defined.




(** With [a/b/c] registered under the root next to [a/b], the longest
    prefix wins: the root's own [a/b/c] is returned, not the [c] beneath
    [a/b]. *)
Lemma p_resolve_descends_shadowed :
  child_of Examples.w_shadow 1 (JS.join "/" ["a"; "b"]) = Some 2%positive
  ∧ child_of Examples.w_shadow 2 "c" = Some 3%positive
  ∧ (p_resolve (H:=toy_keypair) 1 (JS.join "/" ["a"; "b"; "c"]) false
       Examples.w_shadow).1 = Return (Some 4%positive)
  ∧ (descend (H:=toy_keypair) 1 (JS.join "/" ["a"; "b"]) "c" false
       Examples.w_shadow).1 = Return (Some 3%positive)
  ∧ (p_resolve (H:=toy_keypair) 1 (JS.join "/" ["a"; "b"; "c"]) false
       Examples.w_shadow).1
    ≠ (descend (H:=toy_keypair) 1 (JS.join "/" ["a"; "b"]) "c" false
         Examples.w_shadow).1.
Proof. repeat split; [by vm_compute..|]. vm_compute. discriminate. Qed.

Lemma p_resolve_descends_witness :
  (p_resolve (H:=toy_keypair) 1 (JS.join "/" ["a"; "b"; "c"]) false
     Examples.w_nested).1
  = (descend (H:=toy_keypair) 1 (JS.join "/" ["a"; "b"]) "c" false
       Examples.w_nested).1.
Proof.
  refine (proj1 (p_resolve_descends (H:=toy_keypair) Examples.w_nested 1
            (Examples.unsigned "/") (Examples.master "kroot" {[ "a/b" := 2%positive ]})
            "a" "b" "c" 2
            (Examples.unsigned "/a/b") (Examples.master "kab" {[ "c" := 3%positive ]})
            false _ _ _ _ _ _ _ _));
    try reflexivity.
  exists 3%positive. reflexivity.
Defined.

(** ** Signing and verification *)

Section Signing.
Context `{KeyPairOps}.

(** The payload reads [keys], [_publicurls] and [expires] of the record and
    nothing else. *)
Lemma signable_ext o1 o2 domains name date :
  obj_keys o1 = obj_keys o2 →
  _publicurls (name_fields o1) = _publicurls (name_fields o2) →
  expires (name_fields o1) = expires (name_fields o2) →
  _signable o1 domains name date = _signable o2 domains name date.
Proof. unfold _signable. by intros -> -> ->. Qed.

Lemma signable_push_signature sig o domains name date :
  _signable (push_signature sig o) domains name date
  = _signable o domains name date.
Proof. apply signable_ext; by destruct o. Qed.

Lemma signable_evolves added o o' domains name date :
  evolves added o o' →
  _signable o' domains name date = _signable o domains name date.
Proof.
  intros (_ & Hurls & Hexp & _ & Hkind). apply signable_ext; [|done..].
  destruct o, o'; cbn in *; try done. by destruct Hkind as [-> _].
Qed.

Lemma evolves_refl o : evolves [] o o.
Proof. unfold evolves. rewrite app_nil_r. by destruct o. Qed.

Lemma evolves_push_signature sig o : evolves [sig] o (push_signature sig o).
Proof. unfold evolves. by destruct o. Qed.

(** A callback that does not throw: [filter] as on lists. *)
Lemma filter_throwing_return {A} (f : A → bool) (l : list A) :
  filter_throwing (λ x, Return (f x)) l = Return (List.filter f l).
Proof.
  induction l as [|x l IH]; [done|]. cbn. rewrite IH. by destruct (f x).
Qed.

(** On a domain that has a [keys] array, [verify] does not throw. *)
Lemma verify_signatures_defined n d ks name sub :
  keys d = Some ks →
  verify_signatures n d name sub = Return (verifies n ks name sub).
Proof.
  intros Hks. unfold verify_signatures, verifies, keys_includes.
  rewrite Hks. by rewrite (filter_throwing_return (λ sig, JS.includes ks (signedby sig))).
Qed.

(** On a domain whose [keys] is undefined, the first signature makes
    [filter]'s callback throw; without signatures it is never called. *)
Lemma verify_signatures_undefined n d name sub :
  keys d = None →
  verify_signatures n d name sub
  = match signatures (name_fields sub) with
    | [] => Return false
    | _ :: _ =>
        Throw (TypeError "Cannot read properties of undefined (reading 'includes')")
    end.
Proof.
  intros Hks. unfold verify_signatures.
  destruct (signatures (name_fields sub)) as [|sig sigs]; [done|].
  cbn. unfold keys_includes. by rewrite Hks.
Qed.

(** [verify] is true exactly when a signature by one of the domain's keys
    verifies against the recomputed payload. *)
Lemma verifies_true n ks name sub :
  verifies n ks name sub = true
  ↔ ∃ sig, sig ∈ signatures (name_fields sub)
           ∧ signedby sig ∈ ks
           ∧ kp_verify (signedby sig)
               (_signable sub (fullnames n) name (date sig))
               (signature sig) = true.
Proof.
  unfold verifies, JS.some, JS.includes.
  rewrite existsb_exists. split.
  - intros (sig & [Hin Hkey%bool_decide_eq_true]%filter_In & Hver).
    exists sig. by rewrite list_elem_of_In.
  - intros (sig & Hin%list_elem_of_In & Hkey & Hver).
    exists sig. split; [|done]. apply filter_In.
    by rewrite bool_decide_eq_true.
Qed.

(** Appending signatures keeps a record verified. *)
Lemma verifies_evolves n n' ks name added sub sub' :
  fullnames n' = fullnames n →
  evolves added sub sub' →
  verifies n ks name sub = true →
  verifies n' ks name sub' = true.
Proof.
  intros Hfn Hev. rewrite !verifies_true.
  intros (sig & Hin & Hkey & Hver). exists sig.
  rewrite (signable_evolves _ _ _ _ _ _ Hev), Hfn.
  destruct Hev as (_ & _ & _ & -> & _).
  split; [|done]. apply elem_of_app. by left.
Qed.

Lemma sign_run w this n d kp name r sub now :
  heap w !! this = Some (Domain n d) → keypair d = Some kp →
  heap w !! r = Some sub →
  sign this name r now w
  = (Return (),
     {| heap := <[r := push_signature
                         (make_signature kp (fullnames n) name sub now) sub]>
                  (heap w);
        trace := trace w |}).
Proof.
  intros Hthis Hkp Hr. unfold sign, mbind, M_bind.
  rewrite (load_domain_ok _ _ _ n d Hthis). unfold load. by rewrite Hr, Hkp.
Qed.

Lemma verify_body_run w this n d name r sub :
  heap w !! this = Some (Domain n d) → heap w !! r = Some sub →
  verify this name r w = (verify_signatures n d name sub, w).
Proof.
  intros Hthis Hr. unfold verify, mbind, M_bind.
  rewrite (load_domain_ok _ _ _ n d Hthis). unfold load. by rewrite Hr.
Qed.

Lemma verify_run w this n d ks name r sub :
  heap w !! this = Some (Domain n d) → keys d = Some ks →
  heap w !! r = Some sub →
  verify this name r w = (Return (verifies n ks name sub), w).
Proof.
  intros Hthis Hks Hr. rewrite (verify_body_run _ _ n d _ _ sub) by done.
  by rewrite (verify_signatures_defined n d ks).
Qed.

(** [verify] returns only on a domain, about a record that is there. *)
Lemma verify_returns w this name c b :
  verify this name c w = (Return b, w) →
  ∃ n d sub, heap w !! this = Some (Domain n d) ∧ heap w !! c = Some sub
             ∧ verify_signatures n d name sub = Return b.
Proof.
  intros Hver.
  destruct (heap w !! this) as [[nn|n d]|] eqn:Hthis.
  1, 3: unfold verify, mbind, M_bind, load_domain, load, mbind, M_bind in Hver;
        by rewrite Hthis in Hver.
  destruct (heap w !! c) as [sub|] eqn:Hc.
  2: { unfold verify, mbind, M_bind in Hver.
       rewrite (load_domain_ok _ _ _ n d Hthis) in Hver.
       unfold load in Hver. by rewrite Hc in Hver. }
  rewrite (verify_body_run _ _ n d _ _ sub) in Hver by done.
  exists n, d, sub. repeat split; congruence.
Qed.

(** A true answer comes from a domain that has a [keys] array. *)
Lemma verify_signatures_true_defined n d name sub :
  verify_signatures n d name sub = Return true →
  ∃ ks, keys d = Some ks ∧ verifies n ks name sub = true.
Proof.
  destruct (keys d) as [ks|] eqn:Hks.
  - rewrite (verify_signatures_defined n d ks) by done.
    intros [= Hb]. by exists ks.
  - rewrite verify_signatures_undefined by done.
    by destruct (signatures (name_fields sub)).
Qed.

Lemma p_set_run w this n d name value :
  heap w !! this = Some (Domain n d) →
  p_set this name value w
  = (Return (),
     {| heap := <[this := Domain n {| keys := keys d; keypair := keypair d;
                                      _map := <[name := value]> (_map d);
                                      _autoset := _autoset d;
                                      _urls := _urls d |}]> (heap w);
        trace := trace w
                 ++ (if _autoset d
                     then [TransportSet (_urls d) name value] else []) |}).
Proof.
  intros Hthis. unfold p_set, mbind at 1, M_bind at 1.
  rewrite (load_domain_ok _ _ _ n d Hthis).
  unfold mbind, M_bind, _after_fetch, mret, M_ret, emit, store.
  destruct (_autoset d) eqn:Hauto; cbn [heap trace];
    rewrite (load_domain_ok _ _ _ n d) by done; cbn [heap trace];
    by rewrite ?Hauto, ?app_nil_r.
Qed.

Lemma verifies_cong n n' ks name sub sub' :
  fullnames n' = fullnames n →
  evolves [] sub sub' →
  verifies n' ks name sub' = verifies n ks name sub.
Proof.
  intros Hfn Hev. apply eq_true_iff_eq.
  rewrite !verifies_true.
  assert (Hpay : ∀ date, _signable sub' (fullnames n) name date
                         = _signable sub (fullnames n) name date).
  { intros date. by eapply signable_evolves. }
  destruct Hev as (_ & _ & _ & Hsigs & _). rewrite app_nil_r in Hsigs.
  rewrite Hfn, Hsigs.
  split; intros (sig & ? & ? & Hver); exists sig; repeat split; try done.
  - by rewrite <- Hpay.
  - by rewrite Hpay.
Qed.

(** What [p_register] of a record does to the world, on a domain that has
    a key pair and a [keys] array. *)
Lemma p_register_record_run w this n d kp ks name r sub now :
  heap w !! this = Some (Domain n d) → keypair d = Some kp →
  keys d = Some ks →
  heap w !! r = Some sub →
  let sig := make_signature kp (fullnames n) name sub now in
  ∃ w' n1 d1 sub1,
    p_register this name (Record_ r) now w = (Return (), w')
    ∧ heap w' !! this = Some (Domain n1 d1)
    ∧ heap w' !! r = Some sub1
    ∧ evolves (if decide (this = r) then [sig] else []) (Domain n d) (Domain n1 d1)
    ∧ evolves [sig] sub sub1
    ∧ _map d1 = <[name := r]> (_map d)
    ∧ (∀ l, l ≠ this → l ≠ r → heap w' !! l = heap w !! l)
    ∧ trace w'
      = trace w
        ++ (if verifies n1 ks name sub1 then [] else [AssertionFailed])
        ++ (if _autoset d then [TransportSet (_urls d) name r] else []).
Proof.
  intros Hthis Hkp Hks Hr sig.
  set (h1 := <[r := push_signature sig sub]> (heap w)).
  set (n1 := if decide (this = r)
             then name_fields (push_signature sig (Domain n d)) else n).
  set (d1 := {| keys := keys d; keypair := keypair d;
                _map := <[name := r]> (_map d);
                _autoset := _autoset d; _urls := _urls d |}).
  assert (Hthis1 : h1 !! this = Some (Domain n1 d)).
  { unfold h1, n1. destruct (decide (this = r)) as [->|Hne].
    - rewrite lookup_insert_eq. by replace sub with (Domain n d) by congruence.
    - by rewrite lookup_insert_ne. }
  assert (Hr1 : h1 !! r = Some (push_signature sig sub)).
  { unfold h1. by rewrite lookup_insert_eq. }
  assert (Hev_this : evolves (if decide (this = r) then [sig] else [])
                       (Domain n d) (Domain n1 d1)).
  { unfold n1. destruct (decide (this = r)); unfold evolves; cbn;
      by rewrite ?app_nil_r. }
  set (sub1 := if decide (this = r) then Domain n1 d1 else push_signature sig sub).
  assert (Hev_sub : evolves [sig] sub sub1).
  { unfold sub1. destruct (decide (this = r)) as [->|Hne].
    - by replace sub with (Domain n d) by congruence.
    - apply evolves_push_signature. }
  assert (Hok : verifies n1 ks name (push_signature sig sub)
                = verifies n1 ks name sub1).
  { symmetry. apply verifies_cong; [done|].
    unfold sub1. destruct (decide (this = r)) as [->|Hne]; [|apply evolves_refl].
    replace sub with (Domain n d) by congruence.
    unfold evolves. cbn. by rewrite app_nil_r. }
  set (w' := {| heap := <[this := Domain n1 d1]> h1;
                trace := trace w
                  ++ (if verifies n1 ks name sub1 then [] else [AssertionFailed])
                  ++ (if _autoset d then [TransportSet (_urls d) name r] else []) |}).
  exists w', n1, d1, sub1.
  refine (conj _ (conj _ (conj _ (conj Hev_this (conj Hev_sub
            (conj eq_refl (conj _ eq_refl))))))).
  - unfold p_register. unfold mbind at 1, M_bind at 1, mret at 1, M_ret at 1.
    unfold mbind at 1, M_bind at 1.
    rewrite (sign_run _ _ n d kp _ _ sub) by done. fold sig. fold h1.
    unfold mbind at 1, M_bind at 1.
    rewrite (verify_run _ _ n1 d ks _ _ (push_signature sig sub)) by done.
    rewrite Hok. unfold mbind at 1, M_bind at 1.
    destruct (verifies n1 ks name sub1); cbn [console_assert];
      unfold mret, M_ret, emit; cbn [heap trace];
      rewrite (p_set_run _ _ n1 d) by done; cbn [heap trace];
      unfold w'; fold d1; by rewrite <- ?app_assoc.
  - unfold w'. cbn. by rewrite lookup_insert_eq.
  - unfold w', sub1. cbn. destruct (decide (this = r)) as [->|Hne].
    + by rewrite lookup_insert_eq.
    + by rewrite lookup_insert_ne.
  - intros l Hl1 Hl2. unfold w', h1. cbn. by rewrite !lookup_insert_ne.
Qed.

(** Every object is still there after a registration, with the new
    signature on the registered record and nowhere else. *)
Lemma p_register_record_evolves w this n d kp ks name r sub now :
  heap w !! this = Some (Domain n d) → keypair d = Some kp →
  keys d = Some ks →
  heap w !! r = Some sub →
  let sig := make_signature kp (fullnames n) name sub now in
  ∃ w',
    p_register this name (Record_ r) now w = (Return (), w')
    ∧ (∀ l o, heap w !! l = Some o →
         ∃ o', heap w' !! l = Some o'
               ∧ evolves (if decide (l = r) then [sig] else []) o o')
    ∧ child_of w' this name = Some r.
Proof.
  intros Hthis Hkp Hks Hr sig.
  destruct (p_register_record_run w this n d kp ks name r sub now Hthis Hkp Hks Hr)
    as (w' & n1 & d1 & sub1 & Hrun & Hthis' & Hr' & Hev_this & Hev_sub
        & Hmap & Hframe & _).
  exists w'. split; [done|]. split.
  - intros l o Hl. destruct (decide (l = r)) as [->|Hlr].
    + exists sub1. split; [done|]. by replace o with sub by congruence.
    + destruct (decide (l = this)) as [->|Hlt].
      * exists (Domain n1 d1). split; [done|].
        replace o with (Domain n d) by congruence.
        by rewrite decide_False in Hev_this by done.
      * exists o. rewrite Hframe by done. split; [done|apply evolves_refl].
  - unfold child_of. rewrite Hthis', Hmap. apply lookup_insert_eq.
Qed.

Lemma signatures_push_signature sig o :
  signatures (name_fields (push_signature sig o))
  = signatures (name_fields o) ++ [sig].
Proof. by destruct o. Qed.

(** On a domain that has a key pair and no [keys], [p_register] of a record
    signs it and then throws inside [verify], so [p_set] is not reached. *)
Lemma p_register_record_undefined_keys w this n d kp name r sub now :
  heap w !! this = Some (Domain n d) → keypair d = Some kp →
  keys d = None →
  heap w !! r = Some sub →
  let sig := make_signature kp (fullnames n) name sub now in
  p_register this name (Record_ r) now w
  = (Throw (TypeError "Cannot read properties of undefined (reading 'includes')"),
     {| heap := <[r := push_signature sig sub]> (heap w); trace := trace w |}).
Proof.
  intros Hthis Hkp Hks Hr sig.
  set (h1 := <[r := push_signature sig sub]> (heap w)).
  assert (Hthis1 : ∃ n1, h1 !! this = Some (Domain n1 d)).
  { unfold h1. destruct (decide (this = r)) as [->|Hne].
    - rewrite lookup_insert_eq. replace sub with (Domain n d) by congruence.
      by eexists.
    - rewrite lookup_insert_ne by done. by eexists. }
  destruct Hthis1 as [n1 Hthis1].
  assert (Hr1 : h1 !! r = Some (push_signature sig sub)).
  { unfold h1. by rewrite lookup_insert_eq. }
  unfold p_register. unfold mbind at 1, M_bind at 1, mret at 1, M_ret at 1.
  unfold mbind at 1, M_bind at 1.
  rewrite (sign_run _ _ n d kp _ _ sub) by done. fold sig. fold h1.
  unfold mbind at 1, M_bind at 1.
  rewrite (verify_body_run _ _ n1 d _ _ (push_signature sig sub)) by done.
  rewrite verify_signatures_undefined by done.
  rewrite signatures_push_signature.
  by destruct (signatures (name_fields sub)).
Qed.

(** Signing a record leaves every object there, with the new signature on
    the record and nowhere else. *)
Lemma push_signature_evolves (h : gmap loc obj) r sub sig :
  h !! r = Some sub →
  ∀ l o, h !! l = Some o →
    ∃ o', <[r := push_signature sig sub]> h !! l = Some o'
          ∧ evolves (if decide (l = r) then [sig] else []) o o'.
Proof.
  intros Hr l o Hl. destruct (decide (l = r)) as [->|Hne].
  - exists (push_signature sig sub). rewrite lookup_insert_eq.
    split; [done|]. replace o with sub by congruence.
    apply evolves_push_signature.
  - exists o. rewrite lookup_insert_ne by done.
    split; [done|apply evolves_refl].
Qed.

(** A domain stays a domain, with the same [fullnames] and [keys]. *)
Lemma evolves_domain added n d o' :
  evolves added (Domain n d) o' →
  ∃ n' d', o' = Domain n' d' ∧ fullnames n' = fullnames n ∧ keys d' = keys d.
Proof.
  intros (Hfn & _ & _ & _ & Hkind). destruct o' as [|n' d']; [done|].
  exists n', d'. by destruct Hkind as (-> & _).
Qed.

(** Wrapping something that is not a record: a new [Name] is allocated and
    registered. *)
Lemma p_register_stored w this n d name publicurls urls now :
  heap w !! this = Some (Domain n d) →
  p_register this name (Stored publicurls urls) now w
  = p_register this name (Record_ (fresh (dom (heap w)))) now
      {| heap := <[fresh (dom (heap w)) :=
                     Name {| fullnames := (λ fn, JS.join "/" [fn; name])
                                            <$> fullnames n;
                             _publicurls := or_urls publicurls urls;
                             expires := None;
                             signatures := [] |}]> (heap w);
         trace := trace w |}.
Proof.
  intros Hthis. unfold p_register.
  unfold mbind at 1, M_bind at 1. unfold mbind at 1, M_bind at 1.
  rewrite (load_domain_ok _ _ _ n d Hthis). reflexivity.
Qed.

Lemma fresh_not_allocated (w : world) l o :
  heap w !! l = Some o → l ≠ fresh (dom (heap w)).
Proof.
  intros Hl ->. pose proof (is_fresh (dom (heap w))) as Hfresh.
  apply Hfresh, elem_of_dom. by exists o.
Qed.

End Signing.

Section RoundTrip.
Context `{KeyPairOps} `{!KeyPairCorrect}.

(** The signature [sign] has just appended verifies. *)
Lemma appended_signature_verifies n d n1 d1 kp ks name sub sub1 now added :
  let sig := make_signature kp (fullnames n) name sub now in
  signingexport kp ∈ ks →
  evolves added (Domain n d) (Domain n1 d1) →
  evolves [sig] sub sub1 →
  verifies n1 ks name sub1 = true.
Proof.
  intros sig Hkey Hev_this Hev_sub. apply verifies_true.
  exists sig. rewrite (signable_evolves _ _ _ _ _ _ Hev_sub).
  destruct Hev_this as (Hfn & _). cbn in Hfn.
  destruct Hev_sub as (_ & _ & _ & -> & _).
  rewrite Hfn. split; [|split; [done|]].
  - apply elem_of_app. right. by apply list_elem_of_singleton.
  - apply sign_then_verify.
Qed.

Lemma p_register_record_verifies w this n d kp ks name r sub now :
  heap w !! this = Some (Domain n d) → keypair d = Some kp →
  keys d = Some ks → signingexport kp ∈ ks →
  heap w !! r = Some sub →
  ∃ w',
    p_register this name (Record_ r) now w = (Return (), w')
    ∧ trace w' = trace w ++ (if _autoset d
                             then [TransportSet (_urls d) name r] else [])
    ∧ verify this name r w' = (Return true, w').
Proof.
  intros Hthis Hkp Hks Hkey Hr.
  destruct (p_register_record_run w this n d kp ks name r sub now Hthis Hkp Hks Hr)
    as (w' & n1 & d1 & sub1 & Hrun & Hthis' & Hr' & Hev_this & Hev_sub
        & _ & _ & Htrace).
  pose proof (appended_signature_verifies n d n1 d1 kp ks name sub sub1 now _
                Hkey Hev_this Hev_sub) as Hok.
  exists w'. split; [done|]. rewrite Hok in Htrace. split; [done|].
  assert (Hks1 : keys d1 = Some ks).
  { destruct Hev_this as (_ & _ & _ & _ & -> & _). done. }
  by rewrite (verify_run _ _ n1 d1 ks _ _ sub1), Hok.
Qed.

(** C1. For a domain whose key pair's exported signing key is one of its
    [keys], [p_register] of a record (or of something it wraps into a new
    [Name]) completes, its own check logs no failed assertion, and [verify]
    on the domain, the name and the registered record then returns true. *)
Theorem p_register_then_verify w this n d kp ks name r now :
  heap w !! this = Some (Domain n d) →
  keypair d = Some kp →
  keys d = Some ks → signingexport kp ∈ ks →
  (∀ l, r = Record_ l → is_Some (heap w !! l)) →
  ∃ w',
    p_register this name r now w = (Return (), w')
    ∧ trace w' = trace w ++ (if _autoset d
                             then [TransportSet (_urls d) name (registered w r)]
                             else [])
    ∧ verify this name (registered w r) w' = (Return true, w').
Proof.
  intros Hthis Hkp Hks Hkey Hr. destruct r as [l|publicurls urls]; cbn [registered].
  - destruct (Hr l eq_refl) as [sub Hl].
    by apply (p_register_record_verifies _ _ n d kp ks _ _ sub).
  - rewrite (p_register_stored _ _ n d) by done.
    pose proof (fresh_not_allocated _ _ _ Hthis) as Hfresh.
    match goal with
    | |- context [p_register _ _ (Record_ ?l) _ ?w0] =>
        destruct (p_register_record_verifies w0 this n d kp ks name l
                    (Name {| fullnames := (λ fn, JS.join "/" [fn; name])
                                            <$> fullnames n;
                             _publicurls := or_urls publicurls urls;
                             expires := None; signatures := [] |}) now)
          as (w' & Hrun & Htrace & Hver); cbn [heap]; try done
    end.
    + by rewrite lookup_insert_ne.
    + apply lookup_insert_eq.
    + by exists w'.
Qed.

End RoundTrip.

Section Verification.
Context `{KeyPairOps}.

(** C3, as the code has it. On every domain that has a [keys] array, and
    every child record, [verify] returns a boolean and leaves the world as it
    is: it does not throw. The boolean is true exactly when some signature
    of the child whose [signedby] is one of the domain's [keys] verifies
    against the child's payload recomputed under the domain's current
    [fullnames] and that signature's own date; it is false when no
    signature's [signedby] is among the domain's [keys]. *)
Theorem verify_true_iff_signed_by_key w this n d ks name c sub :
  heap w !! this = Some (Domain n d) →
  keys d = Some ks →
  heap w !! c = Some sub →
  ∃ b,
    verify this name c w = (Return b, w)
    ∧ (b = true
       ↔ ∃ sig, sig ∈ signatures (name_fields sub)
                ∧ signedby sig ∈ ks
                ∧ kp_verify (signedby sig)
                    (_signable sub (fullnames n) name (date sig))
                    (signature sig) = true)
    ∧ ((∀ sig, sig ∈ signatures (name_fields sub) → signedby sig ∉ ks) →
       b = false).
Proof.
  intros Hthis Hks Hc. exists (verifies n ks name sub).
  split; [by apply (verify_run _ _ n d)|]. split; [apply verifies_true|].
  intros Hnone. apply not_true_is_false.
  intros (sig & Hin & Hkey & _)%verifies_true.
  by apply (Hnone sig).
Qed.

(** C8, as the code has it. [p_register] does not look at the name: for
    every name, the empty one and those with a slash included, registering a
    record under a domain that has a key pair and a [keys] array completes,
    appends exactly one signature to the record, and stores the record in
    the domain's table under that name. *)
Theorem p_register_accepts_any_name w this n d kp ks name r sub now :
  heap w !! this = Some (Domain n d) →
  keypair d = Some kp →
  keys d = Some ks →
  heap w !! r = Some sub →
  ∃ w' sub1,
    p_register this name (Record_ r) now w = (Return (), w')
    ∧ heap w' !! r = Some sub1
    ∧ signatures (name_fields sub1)
      = signatures (name_fields sub)
        ++ [make_signature kp (fullnames n) name sub now]
    ∧ child_of w' this name = Some r.
Proof.
  intros Hthis Hkp Hks Hr.
  destruct (p_register_record_evolves w this n d kp ks name r sub now
              Hthis Hkp Hks Hr) as (w' & Hrun & Hobjs & Hchild).
  destruct (Hobjs r sub Hr) as (sub1 & Hr' & Hev).
  rewrite decide_True in Hev by done.
  exists w', sub1. by destruct Hev as (_ & _ & _ & Hsigs & _).
Qed.

(** C10. The payload is a function of its arguments and of the record's
    [keys], [_publicurls] and [expires]: records that agree on these have
    the same payload, whatever their [signatures] and [fullnames]. So
    appending a signature leaves the payload as it was, and registering a
    verified record again, under any domain that has a key pair, leaves it
    verified: the registration completes when that domain has a [keys]
    array, and the record is verified afterwards also when it does not. *)
Theorem signable_ignores_signatures_and_fullnames :
  (∀ o1 o2 domains name date,
     obj_keys o1 = obj_keys o2 →
     _publicurls (name_fields o1) = _publicurls (name_fields o2) →
     expires (name_fields o1) = expires (name_fields o2) →
     _signable o1 domains name date = _signable o2 domains name date)
  ∧ (∀ sig o domains name date,
       _signable (push_signature sig o) domains name date
       = _signable o domains name date)
  ∧ (∀ w this name c other n' d' kp name' now,
       verify this name c w = (Return true, w) →
       heap w !! other = Some (Domain n' d') →
       keypair d' = Some kp →
       ∃ res w', p_register other name' (Record_ c) now w = (res, w')
                 ∧ (is_Some (keys d') → res = Return ())
                 ∧ verify this name c w' = (Return true, w')).
Proof.
  split; [apply signable_ext|]. split; [apply signable_push_signature|].
  intros w this name c other n' d' kp name' now Hver Hother Hkp.
  destruct (verify_returns _ _ _ _ _ Hver) as (n & d & sub & Hthis & Hc & Hbody).
  destruct (verify_signatures_true_defined _ _ _ _ Hbody) as (ks & Hks & Hok).
  assert (Hafter : ∀ w' added,
            (∀ l o, heap w !! l = Some o →
               ∃ o', heap w' !! l = Some o'
                     ∧ evolves (if decide (l = c) then added else []) o o') →
            verify this name c w' = (Return true, w')).
  { intros w' added Hobjs.
    destruct (Hobjs this _ Hthis) as (o' & Hthis' & Hev_this).
    destruct (evolves_domain _ _ _ _ Hev_this) as (n1 & d1 & -> & Hfn & Hkeys).
    destruct (Hobjs c _ Hc) as (sub1 & Hc' & Hev_sub).
    rewrite decide_True in Hev_sub by done.
    rewrite (verify_run _ _ n1 d1 ks _ _ sub1) by congruence.
    by rewrite (verifies_evolves n n1 ks name _ sub sub1 Hfn Hev_sub). }
  destruct (keys d') as [ks'|] eqn:Hks'.
  - destruct (p_register_record_evolves w other n' d' kp ks' name' c sub now
                Hother Hkp Hks' Hc) as (w' & Hrun & Hobjs & _).
    exists (Return ()), w'. split; [done|]. split; [done|].
    by apply (Hafter w' _ Hobjs).
  - eexists _, _. split.
    { by apply (p_register_record_undefined_keys w other n' d' kp name' c sub now). }
    split; [by intros [? [=]]|].
    eapply Hafter. cbn [heap]. by apply push_signature_evolves.
Qed.

End Verification.

(** ** The payload determines the domains it was made for *)

Lemma in_all_ascii (c : ascii) : In c JSON.all_ascii.
Proof.
  unfold JSON.all_ascii. rewrite <- (ascii_nat_embedding c).
  apply in_map, in_seq. pose proof (nat_ascii_bounded c). lia.
Qed.

Lemma in_escape_table (c : ascii) :
  In (c, JSON.escape_char c) JSON.escape_table.
Proof.
  unfold JSON.escape_table.
  apply (in_map (λ c, (c, JSON.escape_char c))), in_all_ascii.
Qed.

Lemma escape_table_is_prefix_code :
  JSON.is_prefix_code JSON.escape_table = true.
Proof. vm_compute. reflexivity. Qed.

Lemma app_eq_prefix (u v r r' : string) :
  u +:+ r = v +:+ r' → String.prefix u v = true ∨ String.prefix v u = true.
Proof.
  revert v. induction u as [|a u IH]; intros [|b v] Heq; cbn; auto.
  rewrite !str_app_cons in Heq. injection Heq as Hab Heq. subst a.
  destruct (ascii_dec b b) as [_|Hne]; [|by destruct Hne]. by apply IH.
Qed.

Lemma escape_char_not_dquote (c : ascii) (u t : string) :
  JSON.escape_char c +:+ u ≠ String JSON.dquote t.
Proof.
  pose proof escape_table_is_prefix_code as Hcode.
  unfold JSON.is_prefix_code in Hcode. rewrite forallb_forall in Hcode.
  destruct (andb_prop _ _ (Hcode _ (in_escape_table c))) as [Hopen _].
  cbn [snd] in Hopen.
  destruct (JSON.escape_char c) as [|c' s]; [done|].
  rewrite str_app_cons. intros [= -> _]. by vm_compute in Hopen.
Qed.

(** The escape of a character can be read back off the front of a string. *)
Lemma escape_char_prefix_free (c c' : ascii) (u u' : string) :
  JSON.escape_char c +:+ u = JSON.escape_char c' +:+ u' → c = c' ∧ u = u'.
Proof.
  intros Heq.
  assert (Hpre : ∀ a b, String.prefix (JSON.escape_char a) (JSON.escape_char b) = true
                        → a = b).
  { intros a b Hab. pose proof escape_table_is_prefix_code as Hcode.
    unfold JSON.is_prefix_code in Hcode. rewrite forallb_forall in Hcode.
    destruct (andb_prop _ _ (Hcode _ (in_escape_table a))) as [_ Hall].
    rewrite forallb_forall in Hall.
    specialize (Hall _ (in_escape_table b)). cbn [fst snd] in Hall.
    rewrite Hab in Hall. by apply Ascii.eqb_eq. }
  assert (c = c') as <-.
  { destruct (app_eq_prefix _ _ _ _ Heq) as [Hp|Hp]; [|symmetry]; by apply Hpre. }
  split; [done|]. by apply (inj (String.app _)) in Heq.
Qed.

Lemma escape_delimited (x x' t t' : string) :
  JSON.escape x +:+ String JSON.dquote t = JSON.escape x' +:+ String JSON.dquote t' →
  x = x' ∧ t = t'.
Proof.
  revert x'. induction x as [|c x IH]; intros [|c' x'] Heq; cbn [JSON.escape] in Heq.
  - by injection Heq.
  - rewrite str_app_assoc in Heq. symmetry in Heq.
    by apply escape_char_not_dquote in Heq.
  - rewrite str_app_assoc in Heq. by apply escape_char_not_dquote in Heq.
  - rewrite !str_app_assoc in Heq.
    apply escape_char_prefix_free in Heq as [-> Heq].
    by apply IH in Heq as [-> ->].
Qed.

(** A quoted string is self-delimiting. *)
Lemma quote_delimited (x x' t t' : string) :
  JSON.quote x +:+ t = JSON.quote x' +:+ t' → x = x' ∧ t = t'.
Proof.
  unfold JSON.quote. rewrite !str_app_cons, !str_app_assoc, !str_app_cons.
  intros [= Heq]. by apply escape_delimited.
Qed.

Lemma join_quote_cons (x : string) (l : list string) :
  JS.join "," (JSON.quote <$> (x :: l))
  = JSON.quote x +:+ match l with
                     | [] => ""
                     | _ :: _ => "," +:+ JS.join "," (JSON.quote <$> l)
                     end.
Proof. destruct l; cbn; [by rewrite str_app_nil_r|done]. Qed.

Lemma join_quote_inj (l l' : list string) :
  JS.join "," (JSON.quote <$> l) = JS.join "," (JSON.quote <$> l') → l = l'.
Proof.
  revert l'. induction l as [|x l IH]; intros [|x' l'] Heq; [done| | |].
  - rewrite join_quote_cons in Heq. discriminate.
  - rewrite join_quote_cons in Heq. discriminate.
  - rewrite !join_quote_cons in Heq.
    apply quote_delimited in Heq as [-> Heq]. f_equal.
    destruct l as [|y l], l' as [|y' l']; try done.
    apply IH. by injection Heq.
Qed.

Lemma array_inj (l l' : list string) : JSON.array l = JSON.array l' → l = l'.
Proof.
  unfold JSON.array. intros Heq%(inj (String.app _))%str_app_inv_tail.
  by apply join_quote_inj.
Qed.

Section Payload.
Context `{KeyPairOps}.

(** The payload is the serialised [domains] between two strings that do
    not depend on them. *)
Lemma signable_shape (o : obj) (name date : string) :
  ∃ head tail, ∀ domains,
    _signable o domains name date = head +:+ JSON.array domains +:+ tail.
Proof.
  set (rest := omap JSON.member
                 [("keys", JSON.of_option_strs (obj_keys o));
                  ("_publicurls", JSON.of_option_strs (_publicurls (name_fields o)));
                  ("expires", JSON.of_option_str (expires (name_fields o)))]).
  exists ("{" +:+ (JSON.quote "date" +:+ ":" +:+ JSON.quote date) +:+ ","
          +:+ JSON.quote "domains" +:+ ":"),
         ("," +:+ JS.join "," ((JSON.quote "name" +:+ ":" +:+ JSON.quote name) :: rest)
          +:+ "}").
  intros domains. unfold _signable, JSON.stringify.
  change (omap JSON.member _)
    with ((JSON.quote "date" +:+ ":" +:+ JSON.quote date)
          :: (JSON.quote "domains" +:+ ":" +:+ JSON.array domains)
          :: (JSON.quote "name" +:+ ":" +:+ JSON.quote name) :: rest).
  rewrite !join_cons_cons. generalize (JS.join "," ((JSON.quote "name" +:+ ":" +:+ JSON.quote name) :: rest)).
  intros tail. by rewrite !str_app_assoc.
Qed.

(** Two payloads of one record under one name and date are equal only when
    they were made for the same [domains]. *)
Lemma signable_inj_domains (o : obj) (domains domains' : list string)
    (name date : string) :
  _signable o domains name date = _signable o domains' name date →
  domains = domains'.
Proof.
  destruct (signable_shape o name date) as (head & tail & Hshape).
  rewrite !Hshape. intros Heq%(inj (String.app _))%str_app_inv_tail.
  by apply array_inj.
Qed.

End Payload.

(** ** Renaming a domain *)

Section Rename.
Context `{KeyPairOps}.

Lemma make_signature_push kp domains name sig sub now :
  make_signature kp domains name (push_signature sig sub) now
  = make_signature kp domains name sub now.
Proof. unfold make_signature. by rewrite signable_push_signature. Qed.

Lemma signed_under_new trusted domains name sub :
  signatures (name_fields sub) = [] → signed_under trusted domains name sub.
Proof. unfold signed_under. intros ->. constructor. Qed.

(** [sign] keeps a record signed under the signing domain's [fullnames]. *)
Lemma signed_under_push trusted kp domains name sub now :
  signed_under trusted domains name sub →
  signed_under trusted domains name
    (push_signature (make_signature kp domains name sub now) sub).
Proof.
  unfold signed_under. intros Hall.
  assert (Hsigs : ∀ sig, signatures (name_fields (push_signature sig sub))
                         = signatures (name_fields sub) ++ [sig])
    by (by destruct sub).
  rewrite Hsigs. apply Forall_app. split.
  - eapply Forall_impl; [exact Hall|]. intros sig Hsig Hkey.
    destruct (Hsig Hkey) as [kp' ->]. exists kp'.
    by rewrite make_signature_push.
  - constructor; [|constructor]. intros _. exists kp.
    by rewrite make_signature_push.
Qed.

(** Being signed under [domains] is a matter of the signatures and of the
    fields the payload reads. *)
Lemma signed_under_ext trusted domains name sub sub' :
  obj_keys sub' = obj_keys sub →
  _publicurls (name_fields sub') = _publicurls (name_fields sub) →
  expires (name_fields sub') = expires (name_fields sub) →
  signatures (name_fields sub') = signatures (name_fields sub) →
  signed_under trusted domains name sub →
  signed_under trusted domains name sub'.
Proof.
  unfold signed_under, make_signature. intros Hkeys Hurls Hexp -> Hall.
  eapply Forall_impl; [exact Hall|]. intros sig Hsig Hkey.
  destruct (Hsig Hkey) as [kp Heq]. exists kp.
  by rewrite (signable_ext sub' sub).
Qed.

Context `{!KeyPairBinding}.

Lemma verifies_false_after_rename n ks name sub F :
  signed_under ks F name sub →
  fullnames n ≠ F →
  verifies n ks name sub = false.
Proof.
  intros Hsigned Hrenamed. apply not_true_is_false.
  intros (sig & Hin & Hkey & Hver)%verifies_true.
  unfold signed_under in Hsigned. rewrite Forall_forall in Hsigned.
  destruct (Hsigned sig Hin Hkey) as [kp Hsig]. rewrite Hsig in Hver.
  cbn in Hver.
  apply verify_binds_payload, signable_inj_domains in Hver. done.
Qed.


(** The same as a run: sign a record (new, or signed so far under the
    domain's current [fullnames] only), rename the domain, verify. *)
Lemma sign_rename_verify w this n d kp ks name c sub now F' :
  heap w !! this = Some (Domain n d) →
  keypair d = Some kp →
  keys d = Some ks →
  heap w !! c = Some sub →
  signed_under ks (fullnames n) name sub →
  F' ≠ fullnames n →
  ∃ w', (sign this name c now;; set_fullnames this F';; verify this name c) w
        = (Return false, w').
Proof.
  intros Hthis Hkp Hks Hc Hsigned Hrenamed.
  set (sig := make_signature kp (fullnames n) name sub now).
  set (h1 := <[c := push_signature sig sub]> (heap w)).
  assert (∃ n1, h1 !! this = Some (Domain n1 d)
                ∧ _publicurls n1 = _publicurls n ∧ expires n1 = expires n
                ∧ (c = this → signatures n1 = signatures n ++ [sig]))
    as (n1 & Hthis1 & Hurls & Hexp & Hsigs).
  { unfold h1. destruct (decide (c = this)) as [->|Hne].
    - exists (name_fields (push_signature sig (Domain n d))).
      rewrite lookup_insert_eq. by replace sub with (Domain n d) by congruence.
    - exists n. by rewrite lookup_insert_ne. }
  set (n2 := {| fullnames := F'; _publicurls := _publicurls n1;
                expires := expires n1; signatures := signatures n1 |}).
  set (h2 := <[this := Domain n2 d]> h1).
  assert (∃ sub2, h2 !! c = Some sub2
                  ∧ signed_under ks (fullnames n) name sub2)
    as (sub2 & Hc2 & Hsigned2).
  { pose proof (signed_under_push _ kp _ _ _ now Hsigned) as Hpushed.
    fold sig in Hpushed. unfold h2, h1.
    destruct (decide (c = this)) as [->|Hne].
    - exists (Domain n2 d). rewrite lookup_insert_eq. split; [done|].
      replace sub with (Domain n d) in * by congruence.
      revert Hpushed. apply signed_under_ext; cbn; try done.
      by rewrite Hsigs.
    - exists (push_signature sig sub).
      by rewrite lookup_insert_ne, lookup_insert_eq. }
  eexists. unfold mbind at 1, M_bind at 1.
  rewrite (sign_run _ _ n d kp _ _ sub) by done. fold sig. fold h1.
  unfold mbind at 1, M_bind at 1, set_fullnames, mbind at 1, M_bind at 1.
  rewrite (load_domain_ok _ _ _ n1 d) by done.
  unfold store. cbn [heap trace]. fold n2. fold h2.
  rewrite (verify_run _ _ n2 d ks _ _ sub2); cbn [heap];
    [|by apply lookup_insert_eq|done..].
  by rewrite (verifies_false_after_rename n2 ks name sub2 (fullnames n)).
Qed.

End Rename.

(** ** The toy key pairs *)

Lemma toy_keypair_correct : @KeyPairCorrect toy_keypair.
Proof. intros kp payload. cbn. by apply bool_decide_eq_true. Qed.

Lemma toy_keypair_binding : @KeyPairBinding toy_keypair.
Proof.
  intros kp payload payload'. cbn. intros Heq%bool_decide_eq_true.
  unfold toy_sign in Heq. by do 2 apply (inj (String.app _)) in Heq.
Qed.

(** ** Signing on sample worlds *)

Section Samples.
#[local] Existing Instance toy_keypair.

Lemma p_register_then_verify_witness :
  ∃ w',
    p_register (H:=toy_keypair) 1 "testingtoplevel" (Record_ 2)
      "2018-01-01T00:00:00.000Z" Examples.w_fresh = (Return (), w')
    ∧ trace w' = []
    ∧ verify (H:=toy_keypair) 1 "testingtoplevel" 2 w' = (Return true, w').
Proof.
  refine (p_register_then_verify (H:=toy_keypair) (H0:=toy_keypair_correct)
            Examples.w_fresh 1
            (Examples.unsigned "/") (Examples.master "kroot" ∅) "kroot" ["kroot"]
            "testingtoplevel" (Record_ 2) "2018-01-01T00:00:00.000Z" _ _ _ _ _).
  - reflexivity.
  - reflexivity.
  - reflexivity.
  - vm_compute. constructor.
  - intros l [= <-]. eexists. reflexivity.
Defined.

Lemma verify_true_iff_signed_by_key_witness :
  verify (H:=toy_keypair) 1 "item" 2 Examples.w_signed
  = (Return true, Examples.w_signed).
Proof.
  destruct (verify_true_iff_signed_by_key (H:=toy_keypair) Examples.w_signed 1
              (Examples.unsigned "/")
              (Examples.master "kroot" {[ "item" := 2%positive ]}) ["kroot"]
              "item" 2 Examples.signed_item eq_refl eq_refl eq_refl)
    as (b & -> & Hiff & _).
  do 2 f_equal. apply Hiff. eexists. split; [|split].
  - vm_compute. constructor.
  - vm_compute. constructor.
  - vm_compute. reflexivity.
Defined.

(** On a domain whose [keys] is undefined, [verify] of a record that
    carries a signature throws: it returns no boolean. *)
Lemma verify_throws_without_keys :
  heap Examples.w_no_keys !! 1%positive
  = Some (Domain (Examples.unsigned "/")
            (Examples.no_keys {[ "item" := 2%positive ]}))
  ∧ heap Examples.w_no_keys !! 2%positive = Some Examples.signed_item
  ∧ verify (H:=toy_keypair) 1 "item" 2 Examples.w_no_keys
    = (Throw (TypeError "Cannot read properties of undefined (reading 'includes')"),
       Examples.w_no_keys)
  ∧ ∀ b w', verify (H:=toy_keypair) 1 "item" 2 Examples.w_no_keys ≠ (Return b, w').
Proof.
  assert (Hrun : verify (H:=toy_keypair) 1 "item" 2 Examples.w_no_keys
                 = (Throw (TypeError "Cannot read properties of undefined (reading 'includes')"),
                    Examples.w_no_keys)) by (by vm_compute).
  repeat split; [done..|]. intros b w'. by rewrite Hrun.
Qed.

(** Registering under the empty name, and under a name with a slash: the
    call completes, the record (unsigned before) carries a signature, and the
    table holds it under that name. *)
Lemma p_register_malformed_name_signs_and_stores :
  (signatures ∘ name_fields <$> heap Examples.w_fresh !! 2%positive = Some [])
  ∧ (let w' := p_register (H:=toy_keypair) 1 "" (Record_ 2)
                 "2018-01-01T00:00:00.000Z" Examples.w_fresh in
     w'.1 = Return ()
     ∧ length ∘ signatures ∘ name_fields <$> heap w'.2 !! 2%positive = Some 1
     ∧ child_of w'.2 1 "" = Some 2%positive)
  ∧ (let w' := p_register (H:=toy_keypair) 1 "a/b" (Record_ 2)
                 "2018-01-01T00:00:00.000Z" Examples.w_fresh in
     w'.1 = Return ()
     ∧ length ∘ signatures ∘ name_fields <$> heap w'.2 !! 2%positive = Some 1
     ∧ child_of w'.2 1 "a/b" = Some 2%positive).
Proof. repeat split; by vm_compute. Qed.

Lemma p_register_accepts_any_name_witness :
  ∃ w' sub1,
    p_register (H:=toy_keypair) 1 "" (Record_ 2) "2018-01-01T00:00:00.000Z"
      Examples.w_fresh = (Return (), w')
    ∧ heap w' !! 2%positive = Some sub1
    ∧ signatures (name_fields sub1)
      = [] ++ [make_signature (H:=toy_keypair) "kroot" ["/"] ""
                 (Examples.new_domain "/a/b" "kab" ∅) "2018-01-01T00:00:00.000Z"]
    ∧ child_of w' 1 "" = Some 2%positive.
Proof.
  refine (p_register_accepts_any_name (H:=toy_keypair) Examples.w_fresh 1
            (Examples.unsigned "/") (Examples.master "kroot" ∅) "kroot" ["kroot"]
            "" 2 (Examples.new_domain "/a/b" "kab" ∅)
            "2018-01-01T00:00:00.000Z" _ _ _ _); reflexivity.
Defined.


Lemma signable_ignores_signatures_and_fullnames_witness :
  _signable (H:=toy_keypair) Examples.signed_item ["/"] "item"
    "2018-01-01T00:00:00.000Z"
  = _signable (H:=toy_keypair) (Examples.new_name "/elsewhere" ["loc://item"])
      ["/"] "item" "2018-01-01T00:00:00.000Z".
Proof.
  refine (proj1 (signable_ignores_signatures_and_fullnames (H:=toy_keypair))
            Examples.signed_item (Examples.new_name "/elsewhere" ["loc://item"])
            ["/"] "item" "2018-01-01T00:00:00.000Z" _ _ _); reflexivity.
Defined.

Lemma lookup_loop_at_most_N_lookups_witness :
  lookup_loop ({[ "a" := 2%positive ]} : gmap string loc) ["a"; "b"; "c"]
    ["d"] ["a/b/c/d"]
  = lookup_loop {[ "a" := 2%positive ]} ["a"; "b"] ["c"; "d"]
      ["a/b/c/d"; "a/b/c"].
Proof.
  refine (proj1 (lookup_loop_at_most_N_lookups {[ "a" := 2%positive ]} "a/b/c")
            ["a"; "b"] "c" ["d"] ["a/b/c/d"] _).
  reflexivity.
Defined.

(** ** The built-ins on sample inputs *)


Example split_path : JS.split slash "testingtoplevel/adomain/item1"
                     = ["testingtoplevel"; "adomain"; "item1"].
Proof. reflexivity. Qed.

Example split_empty : JS.split slash "" = [""].
Proof. reflexivity. Qed.

Example split_leading : JS.split slash "/a" = [""; "a"].
Proof. reflexivity. Qed.

Example stringify_example :
  JSON.stringify [("date", JSON.Str "2018-01-01T00:00:00.000Z");
                  ("domains", JSON.Strs ["/"]);
                  ("name", JSON.Str "arc");
                  ("keys", JSON.Undefined);
                  ("_publicurls", JSON.Strs ["u1"; "u2"]);
                  ("expires", JSON.Undefined)]
  = String "{" (JSON.quote "date" +:+ ":" +:+ JSON.quote "2018-01-01T00:00:00.000Z" +:+ ","
     +:+ JSON.quote "domains" +:+ ":[" +:+ JSON.quote "/" +:+ "],"
     +:+ JSON.quote "name" +:+ ":" +:+ JSON.quote "arc" +:+ ","
     +:+ JSON.quote "_publicurls" +:+ ":[" +:+ JSON.quote "u1" +:+ "," +:+ JSON.quote "u2" +:+ "]}").
Proof. reflexivity. Qed.

Example escape_example :
  JSON.escape (String "010"%char (String "001"%char "a\b"))
  = "\n\u0001a\\b".
Proof. reflexivity. Qed.

(** The scenario of [Domain.p_test]: three registrations, then the four
    resolutions it asserts on. *)
Example p_test_scenario :
  let run :=
    (p_register (H:=toy_keypair) 1 "testingtoplevel" (Record_ 2) "2018-01-01T00:00:00.000Z";;
     p_register 2 "adomain" (Record_ 3) "2018-01-02T00:00:00.000Z";;
     p_register 3 "item1" (Stored None (Some ["loc://item1"])) "2018-01-03T00:00:00.000Z";;
     r1 ← p_resolve 1 "testingtoplevel/adomain/item1" false;
     r2 ← p_resolve 1 "testingtoplevel/adomain/itemxx" false;
     r3 ← p_resolve 1 "testingtoplevel/adomainxx/item1" false;
     r4 ← p_resolve 1 "testingtoplevelxx/adomain/item1" false;
     mret (r1, r2, r3, r4))
      {| heap := {[ 1%positive := Examples.new_domain "/" "kroot" ∅;
                    2%positive := Examples.new_domain "/testingtoplevel" "ktop" ∅;
                    3%positive := Examples.new_domain "/testingtoplevel/adomain" "kadom" ∅ ]};
         trace := [] |} in
  run.1 = Return (Some 4%positive, None, None, None)
  ∧ _publicurls ∘ name_fields <$> heap run.2 !! 4%positive
    = Some (Some ["loc://item1"])
  ∧ AssertionFailed ∉ trace run.2.
Proof.
  repeat split; [by vm_compute..|]. vm_compute.
  intros Hin. repeat (apply elem_of_cons in Hin as [Hin|Hin]; [discriminate|]).
  by apply elem_of_nil in Hin.
Qed.

End Samples.

(** * More properties *)

(** ** The utility functions *)

Lemma some_includes_true (a b : list string) :
  JS.some (λ x, JS.includes b x) a = true ↔ ∃ x, x ∈ a ∧ x ∈ b.
Proof.
  unfold JS.some, JS.includes. rewrite existsb_exists. split.
  - intros (x & Hin%list_elem_of_In & Hb%bool_decide_eq_true). eauto.
  - intros (x & Ha & Hb). exists x. rewrite <- list_elem_of_In.
    by rewrite bool_decide_eq_true.
Qed.

(** X1. On two arrays [intersects] is true exactly when they share an
    element, so it does not matter which of the two comes first; on an array
    and something that is not an array it is membership, the same as with
    the one-element array of that thing. *)
Theorem intersects_common_element (a b : list string) :
  (utils.intersects a (utils.Many b) = true ↔ ∃ x, x ∈ a ∧ x ∈ b)
  ∧ utils.intersects a (utils.Many b) = utils.intersects b (utils.Many a)
  ∧ ∀ x, (utils.intersects a (utils.One x) = true ↔ x ∈ a)
         ∧ utils.intersects a (utils.One x)
           = utils.intersects a (utils.Many [x]).
Proof.
  split; [apply some_includes_true|]. split.
  - apply eq_true_iff_eq. cbn. rewrite !some_includes_true.
    split; intros (x & ? & ?); eauto.
  - intros x.
    assert (Hone : utils.intersects a (utils.One x) = true ↔ x ∈ a).
    { cbn. unfold JS.includes. apply bool_decide_eq_true. }
    split; [done|]. apply eq_true_iff_eq. rewrite Hone. cbn.
    rewrite some_includes_true. split.
    + intros Hx. exists x. split; [done|]. by apply list_elem_of_singleton.
    + by intros (y & Hy & ->%list_elem_of_singleton).
Qed.

Lemma lookup_put {V} (prev : gmap string (utils.read V)) key x k :
  utils.put prev key x !! k
  = if decide (k = key ∧ k ≠ "__proto__") then Some x else prev !! k.
Proof.
  unfold utils.put. destruct (bool_decide_reflect (key = "__proto__")) as [->|Hkey].
  - rewrite decide_False; [done|]. by intros [? ?].
  - destruct (decide (k = key)) as [->|Hne].
    + by rewrite lookup_insert_eq, decide_True.
    + rewrite lookup_insert_ne by done. rewrite decide_False; [done|].
      by intros [? ?].
Qed.

Lemma keyFilter_fold_lookup {V} (dic : utils.plain_object V) keys
    (prev : gmap string (utils.read V)) k :
  foldl (λ prev key, utils.put prev key (utils.get dic key)) prev keys !! k
  = if decide (k ∈ keys ∧ k ≠ "__proto__")
    then Some (utils.get dic k) else prev !! k.
Proof.
  revert prev. induction keys as [|key keys IH]; intros prev; cbn [foldl].
  - rewrite decide_False; [done|]. intros [[]%elem_of_nil _].
  - rewrite IH. destruct (decide (k ∈ keys ∧ k ≠ "__proto__")) as [[Hin Hk]|Hnot].
    + rewrite decide_True; [done|]. split; [by apply list_elem_of_further|done].
    + rewrite lookup_put.
      destruct (decide (k = key ∧ k ≠ "__proto__")) as [[-> Hk]|Hnot'].
      * rewrite decide_True; [done|]. split; [apply list_elem_of_here|done].
      * rewrite decide_False; [done|].
        intros [[->|Hin]%elem_of_cons Hk]; [by apply Hnot'|by apply Hnot].
Qed.

(** X2. On a plain object, the object [keyFilter] returns has as its own
    properties exactly the requested keys other than [__proto__], and no
    other property of [dic] is copied. Each holds what [dic[key]] gives: the
    value of [dic]'s own property; without one, what [Object.prototype] has
    under that name ([toString], [constructor], ...); and [undefined] when
    that has none either. *)
Theorem keyFilter_lookup {V} (dic : utils.plain_object V) (keys : list string)
    (k : string) :
  utils.keyFilter dic keys !! k
  = (if decide (k ∈ keys ∧ k ≠ "__proto__")
     then Some (utils.get dic k) else None)
  ∧ utils.get dic k
    = match utils.properties dic !! k with
      | Some v => utils.Own v
      | None => if decide (k ∈ utils.prototype_names)
                then utils.Inherited k else utils.Undefined
      end.
Proof.
  split.
  - unfold utils.keyFilter. by rewrite keyFilter_fold_lookup, lookup_empty.
  - unfold utils.get. destruct (utils.properties dic !! k); [done|].
    by destruct (decide (k ∈ utils.prototype_names));
      [rewrite bool_decide_eq_true_2|rewrite bool_decide_eq_false_2].
Qed.

Lemma bits_pos k : (0 < 2 ^ utils.bits k)%Z.
Proof. by destruct k. Qed.

Lemma to_element_range k x :
  (utils.lower k ≤ utils.to_element k x < utils.upper k)%Z.
Proof.
  pose proof (Z.mod_pos_bound x (2 ^ utils.bits k) (bits_pos k)) as Hmod.
  destruct k; unfold utils.to_element, utils.lower, utils.upper;
    cbn [utils.signed utils.bits andb] in *;
    try match goal with |- context [(?a <=? ?b)%Z] => destruct (Z.leb_spec a b) end;
    cbn in *; lia.
Qed.

Lemma to_element_id k x :
  (utils.lower k ≤ x < utils.upper k)%Z → utils.to_element k x = x.
Proof.
  intros Hx.
  destruct k; unfold utils.to_element, utils.lower, utils.upper in *;
    cbn [utils.signed utils.bits andb] in *;
    try match goal with |- context [(?a <=? ?b)%Z] => destruct (Z.leb_spec a b) end;
    cbn in *; Z.div_mod_to_equations; lia.
Qed.

Lemma to_element_well_formed k l :
  Forall (λ x, (utils.lower k ≤ x < utils.upper k)%Z) l →
  utils.to_element k <$> l = l.
Proof.
  induction 1 as [|x l Hx _ IH]; [done|]. cbn. by rewrite to_element_id, IH.
Qed.

(** The two [set] calls fit: the new array is as long as the two sources
    together. *)
Lemma mergeTypedArraysUnsafe_run (a b : utils.TypedArray) :
  ∃ c,
    utils.mergeTypedArraysUnsafe a b = utils.Done c
    ∧ utils.constructor c = utils.constructor a
    ∧ utils.elements c
      = (utils.to_element (utils.constructor a) <$> utils.elements a)
        ++ (utils.to_element (utils.constructor a) <$> utils.elements b).
Proof.
  destruct a as [k xs], b as [k' ys].
  unfold utils.mergeTypedArraysUnsafe, utils.set, utils.new_array. cbn.
  rewrite decide_True by (rewrite length_replicate; lia). cbn.
  rewrite decide_True by (rewrite length_inserts, length_replicate; lia).
  eexists. split; [reflexivity|]. cbn. split; [done|].
  rewrite replicate_add, list_inserts_0_r
    by (by rewrite length_fmap, length_replicate).
  rewrite <- (Nat.add_0_r (length xs)) at 1.
  rewrite <- (length_fmap (utils.to_element k) xs) at 1.
  rewrite list_inserts_app_r.
  rewrite <- (app_nil_r (replicate _ _)), list_inserts_0_r
    by (by rewrite length_fmap, length_replicate).
  by rewrite app_nil_r.
Qed.

(** X3. On typed arrays of the kinds [Int8Array], [Uint8Array],
    [Uint8ClampedArray], [Int16Array], [Uint16Array], [Int32Array] and
    [Uint32Array], the two [set] calls of [mergeTypedArraysUnsafe] never run
    into a [RangeError]: it returns an array of [a]'s kind whose elements
    are those of [a] followed by those of [b], each converted to what [a]'s
    kind can hold (clamped to [0..255] by [Uint8ClampedArray], reduced
    modulo [2 ^ bits] by the others); its length is the sum of the two
    lengths. *)
Theorem mergeTypedArraysUnsafe_elements (a b : utils.TypedArray) :
  ∃ c,
    utils.mergeTypedArraysUnsafe a b = utils.Done c
    ∧ utils.constructor c = utils.constructor a
    ∧ utils.elements c
      = (utils.to_element (utils.constructor a) <$> utils.elements a)
        ++ (utils.to_element (utils.constructor a) <$> utils.elements b)
    ∧ length (utils.elements c)
      = length (utils.elements a) + length (utils.elements b)
    ∧ utils.well_formed c
    ∧ (utils.constructor a = utils.Uint8ClampedArray →
       ∀ x, utils.to_element (utils.constructor a) x = Z.max 0 (Z.min 255 x))
    ∧ (utils.constructor a ≠ utils.Uint8ClampedArray →
       ∀ x, (utils.to_element (utils.constructor a) x - x)
              mod 2 ^ utils.bits (utils.constructor a) = 0)%Z.
Proof.
  destruct (mergeTypedArraysUnsafe_run a b) as (c & Hrun & Hk & Helems).
  exists c. split; [done|]. split; [done|]. split; [done|]. split; [|split; [|split]].
  - by rewrite Helems, length_app, !length_fmap.
  - unfold utils.well_formed. rewrite Helems, Hk. apply Forall_app. split;
      apply Forall_fmap, Forall_forall; intros x _; apply to_element_range.
  - by intros ->.
  - intros Hk' x. destruct (utils.constructor a); try done;
      unfold utils.to_element; cbn [utils.signed utils.bits andb];
      try match goal with
          | |- context [(?a <=? ?b)%Z] => destruct (Z.leb_spec a b)
          end;
      cbn; Z.div_mod_to_equations; lia.
Qed.

Example keyFilter_example :
  let res := utils.keyFilter MoreExamples.dic_a
               ["a"; "b"; "toString"; "__proto__"] in
  res !! "a" = Some (utils.Own 1%Z)
  ∧ res !! "b" = Some utils.Undefined
  ∧ res !! "toString" = Some (utils.Inherited "toString")
  ∧ res !! "__proto__" = None
  ∧ dom res = {[ "a"; "b"; "toString" ]}.
Proof. repeat split; by vm_compute. Qed.

Example mergeTypedArraysUnsafe_example :
  utils.mergeTypedArraysUnsafe
    {| utils.constructor := utils.Uint8Array; utils.elements := [1]%Z |}
    {| utils.constructor := utils.Uint16Array; utils.elements := [300]%Z |}
  = utils.Done {| utils.constructor := utils.Uint8Array;
                  utils.elements := [1; 44]%Z |}
  ∧ utils.mergeTypedArraysUnsafe
      {| utils.constructor := utils.Uint8ClampedArray; utils.elements := [1]%Z |}
      {| utils.constructor := utils.Int16Array; utils.elements := [300; -5]%Z |}
    = utils.Done {| utils.constructor := utils.Uint8ClampedArray;
                    utils.elements := [1; 255; 0]%Z |}
  ∧ utils.mergeTypedArraysUnsafe
      {| utils.constructor := utils.Int8Array; utils.elements := [-1]%Z |}
      {| utils.constructor := utils.Uint8Array; utils.elements := [200; 127]%Z |}
    = utils.Done {| utils.constructor := utils.Int8Array;
                    utils.elements := [-1; -56; 127]%Z |}.
Proof. repeat split; by vm_compute. Qed.

(** X4. On well-formed arrays of one kind, [mergeTypedArraysUnsafe] is
    concatenation, and merging three arrays gives the same array whichever
    two are merged first. *)
Theorem mergeTypedArraysUnsafe_same_kind (a b c : utils.TypedArray) :
  utils.well_formed a → utils.well_formed b → utils.well_formed c →
  utils.constructor b = utils.constructor a →
  utils.constructor c = utils.constructor a →
  utils.mergeTypedArraysUnsafe a b
  = utils.Done {| utils.constructor := utils.constructor a;
                  utils.elements := utils.elements a ++ utils.elements b |}
  ∧ ∃ ab bc abc,
      utils.mergeTypedArraysUnsafe a b = utils.Done ab
      ∧ utils.mergeTypedArraysUnsafe b c = utils.Done bc
      ∧ utils.mergeTypedArraysUnsafe ab c = utils.Done abc
      ∧ utils.mergeTypedArraysUnsafe a bc = utils.Done abc.
Proof.
  intros Ha Hb Hc Hkb Hkc.
  assert (Hmerge : ∀ x y, utils.well_formed x → utils.well_formed y →
            utils.constructor y = utils.constructor x →
            utils.mergeTypedArraysUnsafe x y
            = utils.Done {| utils.constructor := utils.constructor x;
                            utils.elements := utils.elements x ++ utils.elements y |}).
  { intros x y Hx Hy Hk.
    destruct (mergeTypedArraysUnsafe_run x y)
      as ([k zs] & -> & Hkz & Hz). cbn in *. subst k.
    unfold utils.well_formed in Hy. rewrite Hk in Hy.
    by rewrite Hz, (to_element_well_formed _ _ Hx),
      (to_element_well_formed _ _ Hy). }
  split; [by apply Hmerge|].
  assert (Hab : utils.well_formed
            {| utils.constructor := utils.constructor a;
               utils.elements := utils.elements a ++ utils.elements b |}).
  { unfold utils.well_formed in *. cbn. rewrite Hkb in Hb. by apply Forall_app. }
  assert (Hbc : utils.well_formed
            {| utils.constructor := utils.constructor b;
               utils.elements := utils.elements b ++ utils.elements c |}).
  { unfold utils.well_formed in *. cbn. rewrite Hkc, <- Hkb in Hc.
    by apply Forall_app. }
  exists {| utils.constructor := utils.constructor a;
            utils.elements := utils.elements a ++ utils.elements b |},
         {| utils.constructor := utils.constructor b;
            utils.elements := utils.elements b ++ utils.elements c |},
         {| utils.constructor := utils.constructor a;
            utils.elements := utils.elements a ++ utils.elements b
                              ++ utils.elements c |}.
  rewrite (Hmerge a b), (Hmerge b c) by congruence.
  split; [done|]. split; [done|].
  rewrite !Hmerge; cbn; try congruence; try done.
  by rewrite <- app_assoc.
Qed.

(** ** More on resolution *)

Lemma table_gets_app evs evs' :
  table_gets (evs ++ evs') = table_gets evs + table_gets evs'.
Proof. unfold table_gets. by rewrite List.filter_app, length_app. Qed.

Lemma table_gets_gets this (gets : list string) :
  table_gets (TableGet this <$> gets) = length gets.
Proof.
  unfold table_gets. induction gets as [|key gets IH]; [done|].
  cbn. by rewrite IH.
Qed.

Lemma le_triangle n : n ≤ triangle n.
Proof. destruct n; cbn; lia. Qed.

Lemma triangle_mono n m : n ≤ m → triangle n ≤ triangle m.
Proof.
  induction 1 as [|m _ IH]; [done|]. cbn. lia.
Qed.

(** A path that ends in a separator-free segment splits into the segments
    before it and that segment. *)
Lemma split_app_no_slash (a b : string) :
  no_slash b → JS.split slash (a +:+ "/" +:+ b) = JS.split slash a ++ [b].
Proof.
  intros Hb. induction a as [|c a IH].
  - change (JS.split slash ("/" +:+ b) = [""] ++ [b]).
    by rewrite split_leading_slash, (split_no_slash b Hb).
  - rewrite str_app_cons. cbn [JS.split]. rewrite IH.
    destruct (Ascii.eqb c slash); [done|].
    pose proof (split_not_nil slash a). by destruct (JS.split slash a).
Qed.

Section MoreResolution.
Context `{KeyPairOps}.

(** A run of [p_resolve_fuel] with enough levels: it ends, the heap is as it
    was, and the table was read at most [1 + ... + N] times. *)
Lemma p_resolve_fuel_run fuel this path verbose w :
  length (JS.split slash path) ≤ fuel →
  ∃ c evs,
    p_resolve_fuel fuel this path verbose w = (c, with_trace w evs)
    ∧ c ≠ OutOfFuel
    ∧ table_gets evs ≤ triangle (length (JS.split slash path)).
Proof.
  revert this path w. induction fuel as [|fuel IH]; intros this path w Hlen.
  { pose proof (split_length_pos slash path). lia. }
  destruct (heap w !! this) as [[n|n d]|] eqn:Hthis.
  1, 3: eexists _, []; rewrite p_resolve_fuel_on_other, with_trace_nil
          by congruence; repeat split; [done|cbn; lia].
  rewrite (p_resolve_fuel_level _ _ _ _ _ n d Hthis).
  set (log := if verbose then [ConsoleLog _] else []).
  assert (Hlog : table_gets log = 0) by (by destruct verbose).
  pose proof (le_triangle (length (JS.split slash path))) as Htri.
  destruct (lookup_loop_spec (_map d) (JS.split slash path) [] [])
    as [(j & res & Hj & _ & _ & ->)|[_ ->]]; cbn zeta in *.
  - rewrite app_nil_r. cbn [app].
    destruct (drop _ _) as [|s remainder] eqn:Hdrop.
    + eexists _, _. split; [done|]. split; [done|].
      rewrite table_gets_app, table_gets_gets, length_fmap, length_seq. lia.
    + assert (Hrem : JS.split slash (JS.join "/" (s :: remainder))
                     = s :: remainder).
      { apply split_join; [done|]. rewrite <- Hdrop.
        apply Forall_drop, split_segments_no_slash. }
      assert (Hremlen : length (s :: remainder) = j).
      { rewrite <- Hdrop, length_drop. lia. }
      destruct (IH res (JS.join "/" (s :: remainder))
                  (with_trace w (log ++ (TableGet this <$>
                     (candidate (JS.split slash path) <$> seq 0 (S j))))))
        as (c & evs & -> & Hc & Hgets).
      { rewrite Hrem, Hremlen. lia. }
      rewrite Hrem, Hremlen in Hgets. rewrite with_trace_app.
      eexists _, _. split; [done|]. split; [done|].
      rewrite !table_gets_app, table_gets_gets, length_fmap, length_seq.
      pose proof (triangle_mono (S j) (length (JS.split slash path)) Hj) as Hm.
      cbn [triangle] in Hm. lia.
  - cbn [app]. rewrite with_trace_app. eexists _, _. split; [done|].
    split; [done|].
    rewrite !table_gets_app, table_gets_gets, length_fmap, length_seq.
    cbn. lia.
Qed.

(** X5. [p_resolve] only reads: whatever it returns or throws, every object
    is as it was before, and the events of before are still there, in
    order, with the new ones after them. *)
Theorem p_resolve_read_only this path verbose w :
  ∃ c evs,
    p_resolve this path verbose w = (c, with_trace w evs)
    ∧ heap (p_resolve this path verbose w).2 = heap w
    ∧ trace (p_resolve this path verbose w).2 = trace w ++ evs.
Proof.
  destruct (p_resolve_fuel_run (length (JS.split slash path)) this path verbose w)
    as (c & evs & Hrun & _); [done|].
  exists c, evs. unfold p_resolve. by rewrite Hrun.
Qed.

(** X6. [p_resolve] always ends, by returning or by throwing, and on a path
    of [N] segments reads tables at most [1 + 2 + ... + N] times over all the
    records it descends through. *)
Theorem p_resolve_ends_within_triangle this path verbose w :
  (p_resolve this path verbose w).1 ≠ OutOfFuel
  ∧ table_gets (drop (length (trace w))
                  (trace (p_resolve this path verbose w).2))
    ≤ triangle (length (JS.split slash path)).
Proof.
  destruct (p_resolve_fuel_run (length (JS.split slash path)) this path verbose w)
    as (c & evs & Hrun & Hc & Hgets); [done|].
  unfold p_resolve. rewrite Hrun. cbn. split; [done|].
  by rewrite drop_app_length.
Qed.

(** A path that is itself a child key is found at the first lookup. *)
Lemma p_resolve_direct w this n d path verbose r :
  heap w !! this = Some (Domain n d) →
  table_get (_map d) path = Some r →
  p_resolve this path verbose w
  = (Return (Some r),
     with_trace w
       ((if verbose
         then [ConsoleLog ["resolving"; path; "in"; JS.join ", " (fullnames n)]]
         else [])
        ++ [TableGet this path])).
Proof.
  intros Hthis Hget. unfold p_resolve.
  pose proof (split_length_pos slash path) as Hpos.
  destruct (length (JS.split slash path)) as [|fuel]; [lia|].
  rewrite (p_resolve_fuel_level _ _ _ _ _ n d Hthis).
  rewrite (lookup_loop_hit _ _ _ _ r);
    [|apply split_not_nil|by rewrite join_split].
  by rewrite join_split.
Qed.

(** The recursive step: the whole path misses, the path without its last
    segment hits, and the last segment is resolved in the record found. *)
Lemma p_resolve_step w this n d a b verbose r :
  heap w !! this = Some (Domain n d) →
  no_slash b →
  table_get (_map d) (a +:+ "/" +:+ b) = None →
  table_get (_map d) a = Some r →
  p_resolve this (a +:+ "/" +:+ b) verbose w
  = p_resolve r b verbose
      (with_trace w
         ((if verbose
           then [ConsoleLog ["resolving"; a +:+ "/" +:+ b; "in";
                             JS.join ", " (fullnames n)]]
           else [])
          ++ [TableGet this (a +:+ "/" +:+ b); TableGet this a])).
Proof.
  intros Hthis Hb Hmiss Hhit. unfold p_resolve.
  rewrite (split_no_slash b Hb). cbn [length].
  rewrite (split_app_no_slash a b Hb), length_app, Nat.add_1_r.
  rewrite (p_resolve_fuel_level _ _ _ _ _ n d Hthis).
  rewrite (split_app_no_slash a b Hb).
  assert (Hjoin : JS.join "/" (JS.split slash a ++ [b]) = a +:+ "/" +:+ b).
  { by rewrite <- (split_app_no_slash a b Hb), join_split. }
  rewrite lookup_loop_miss by (by rewrite Hjoin).
  rewrite (lookup_loop_hit _ _ _ _ r);
    [|apply split_not_nil|by rewrite join_split].
  rewrite Hjoin, join_split. cbn [JS.join app].
  apply p_resolve_fuel_more.
  - rewrite (split_no_slash b Hb). cbn. apply split_length_pos.
  - by rewrite (split_no_slash b Hb).
Qed.

End MoreResolution.

Section MoreResolutionTheorems.
Context `{KeyPairOps}.

(** X7. A path that is itself a child key of the domain resolves to that
    child at the first lookup: the whole path is tried before any shorter
    prefix, so children registered under its prefixes are not looked at. *)
Theorem p_resolve_whole_path_first w this n d path verbose r :
  heap w !! this = Some (Domain n d) →
  table_get (_map d) path = Some r →
  p_resolve this path verbose w
  = (Return (Some r),
     with_trace w
       ((if verbose
         then [ConsoleLog ["resolving"; path; "in"; JS.join ", " (fullnames n)]]
         else [])
        ++ [TableGet this path])).
Proof. apply p_resolve_direct. Qed.

(** X8. When the path [a/b] (with [b] one segment) is not a child key and
    [a] is, resolving [a/b] is resolving [b] in the child under [a], after
    the two lookups: the result, throw included, is that of the child, and
    the first domain is not read again. *)
Theorem p_resolve_remainder_in_child w this n d a b verbose r :
  heap w !! this = Some (Domain n d) →
  no_slash b →
  table_get (_map d) (a +:+ "/" +:+ b) = None →
  table_get (_map d) a = Some r →
  p_resolve this (a +:+ "/" +:+ b) verbose w
  = p_resolve r b verbose
      (with_trace w
         ((if verbose
           then [ConsoleLog ["resolving"; a +:+ "/" +:+ b; "in";
                             JS.join ", " (fullnames n)]]
           else [])
          ++ [TableGet this (a +:+ "/" +:+ b); TableGet this a])).
Proof. apply p_resolve_step. Qed.

(** X9. Resolving below a [Name] throws: when [a] is registered as a [Name]
    and [a/b] is not registered, resolving [a/b] does not return [undefined]
    but throws the [TypeError] of calling [p_resolve] on an object that has
    no such method. *)
Theorem p_resolve_below_name_throws w this n d a b verbose r nm :
  heap w !! this = Some (Domain n d) →
  no_slash b →
  table_get (_map d) (a +:+ "/" +:+ b) = None →
  table_get (_map d) a = Some r →
  heap w !! r = Some (Name nm) →
  (p_resolve this (a +:+ "/" +:+ b) verbose w).1
  = Throw (TypeError "p_resolve is not a function").
Proof.
  intros Hthis Hb Hmiss Hhit Hr.
  rewrite (p_resolve_step _ _ n d _ _ _ r) by done.
  unfold p_resolve. rewrite (split_no_slash b Hb). cbn [length].
  rewrite p_resolve_fuel_on_other;
    unfold with_trace; cbn [heap fst]; rewrite Hr; [done|congruence].
Qed.

(** X10. What [p_register] stores, [p_resolve] finds: after registering a
    record (or what is wrapped into a new [Name]) under any name, in a domain
    that has a key pair and a [keys] array, resolving that name in the
    domain returns the registered record. *)
Theorem p_register_then_resolve w this n d kp ks name r now verbose :
  heap w !! this = Some (Domain n d) →
  keypair d = Some kp →
  keys d = Some ks →
  (∀ l, r = Record_ l → is_Some (heap w !! l)) →
  ∃ w',
    p_register this name r now w = (Return (), w')
    ∧ (p_resolve this name verbose w').1 = Return (Some (registered w r)).
Proof.
  intros Hthis Hkp Hks Hr.
  assert (Hrecord : ∀ w0 l sub,
            heap w0 !! this = Some (Domain n d) → heap w0 !! l = Some sub →
            ∃ w', p_register this name (Record_ l) now w0 = (Return (), w')
                  ∧ (p_resolve this name verbose w').1 = Return (Some l)).
  { intros w0 l sub Hthis0 Hl.
    destruct (p_register_record_evolves w0 this n d kp ks name l sub now
                Hthis0 Hkp Hks Hl) as (w' & Hrun & _ & Hchild).
    exists w'. split; [done|]. unfold child_of in Hchild.
    destruct (heap w' !! this) as [[?|n' d']|] eqn:Hthis'; try done.
    by rewrite (p_resolve_direct _ _ n' d' _ _ l). }
  destruct r as [l|publicurls urls]; cbn [registered].
  - destruct (Hr l eq_refl) as [sub Hl]. by apply (Hrecord w l sub).
  - rewrite (p_register_stored _ _ n d) by done.
    pose proof (fresh_not_allocated _ _ _ Hthis) as Hfresh.
    eapply Hrecord; cbn [heap].
    + by rewrite lookup_insert_ne.
    + apply lookup_insert_eq.
Qed.

End MoreResolutionTheorems.

(** ** More on registration *)

Section MoreRegistration.
Context `{KeyPairOps}.

(** The heap [p_register] of a record leaves: the record with the new
    signature, the domain with the new table entry, the rest as it was. *)
Lemma p_register_record_heap w this n d kp ks name r sub now :
  heap w !! this = Some (Domain n d) → keypair d = Some kp →
  keys d = Some ks →
  heap w !! r = Some sub →
  let sig := make_signature kp (fullnames n) name sub now in
  let n1 := if decide (this = r)
            then name_fields (push_signature sig (Domain n d)) else n in
  let d1 := {| keys := keys d; keypair := keypair d;
               _map := <[name := r]> (_map d);
               _autoset := _autoset d; _urls := _urls d |} in
  ∃ evs,
    p_register this name (Record_ r) now w
    = (Return (),
       {| heap := <[this := Domain n1 d1]>
                    (<[r := push_signature sig sub]> (heap w));
          trace := trace w ++ evs |}).
Proof.
  intros Hthis Hkp Hks Hr sig n1 d1.
  set (h1 := <[r := push_signature sig sub]> (heap w)).
  assert (Hthis1 : h1 !! this = Some (Domain n1 d)).
  { unfold h1, n1. destruct (decide (this = r)) as [->|Hne].
    - rewrite lookup_insert_eq. by replace sub with (Domain n d) by congruence.
    - by rewrite lookup_insert_ne. }
  assert (Hr1 : h1 !! r = Some (push_signature sig sub))
    by (unfold h1; by rewrite lookup_insert_eq).
  unfold p_register. unfold mbind at 1, M_bind at 1, mret at 1, M_ret at 1.
  unfold mbind at 1, M_bind at 1.
  rewrite (sign_run _ _ n d kp _ _ sub) by done. fold sig. fold h1.
  unfold mbind at 1, M_bind at 1.
  rewrite (verify_run _ _ n1 d ks _ _ (push_signature sig sub)) by done.
  unfold mbind at 1, M_bind at 1.
  destruct (verifies n1 ks name (push_signature sig sub));
    cbn [console_assert]; unfold mret, M_ret, emit; cbn [heap trace];
    rewrite (p_set_run _ _ n1 d) by done; cbn [heap trace]; fold d1;
    rewrite <- ?app_assoc; eexists; reflexivity.
Qed.

Lemma child_of_push_signature (h : gmap loc obj) tr l sig sub key r :
  h !! r = Some sub →
  child_of {| heap := <[r := push_signature sig sub]> h; trace := tr |} l key
  = child_of {| heap := h; trace := tr |} l key.
Proof.
  intros Hr. unfold child_of. cbn [heap].
  destruct (decide (l = r)) as [->|Hne].
  - rewrite lookup_insert_eq, Hr. by destruct sub.
  - by rewrite lookup_insert_ne.
Qed.


(** X12. A domain without a key pair cannot register: [p_register] throws a
    [TypeError] before anything is signed or stored. The events are those of
    before and every object is as it was. *)
Theorem p_register_without_keypair_throws w this n d name r now :
  heap w !! this = Some (Domain n d) →
  keypair d = None →
  (∀ l, r = Record_ l → is_Some (heap w !! l)) →
  ∃ w',
    p_register this name r now w
    = (Throw (TypeError "keypair is undefined"), w')
    ∧ trace w' = trace w
    ∧ ∀ l o, heap w !! l = Some o → heap w' !! l = Some o.
Proof.
  intros Hthis Hkp Hr.
  assert (Hsign : ∀ w0 l sub, heap w0 !! this = Some (Domain n d) →
            heap w0 !! l = Some sub →
            p_register this name (Record_ l) now w0
            = (Throw (TypeError "keypair is undefined"), w0)).
  { intros w0 l sub Hthis0 Hl. unfold p_register.
    unfold mbind at 1, M_bind at 1, mret at 1, M_ret at 1.
    unfold mbind at 1, M_bind at 1, sign, mbind at 1, M_bind at 1.
    rewrite (load_domain_ok _ _ _ n d Hthis0).
    unfold mbind, M_bind, load. by rewrite Hl, Hkp. }
  destruct r as [l|publicurls urls].
  - destruct (Hr l eq_refl) as [sub Hl]. exists w.
    by rewrite (Hsign w l sub).
  - rewrite (p_register_stored _ _ n d) by done.
    pose proof (fresh_not_allocated _ _ _ Hthis) as Hfresh.
    eexists. erewrite Hsign; cbn [heap].
    + split; [done|]. split; [done|]. intros l o Hl. cbn.
      rewrite lookup_insert_ne; [done|].
      intros <-. by apply (fresh_not_allocated w _ o Hl).
    + by rewrite lookup_insert_ne.
    + apply lookup_insert_eq.
Qed.

(** X19. A domain that has a key pair and no [keys] signs and then fails:
    [p_register] of a record appends the signature to the record, throws the
    [TypeError] of reading [includes] of [undefined] inside [verify], and
    does not reach [p_set]: every table is as it was, and so are the events
    and every object other than the record. *)
Theorem p_register_without_keys_throws_after_signing w this n d kp name r sub now :
  heap w !! this = Some (Domain n d) →
  keypair d = Some kp →
  keys d = None →
  heap w !! r = Some sub →
  ∃ w',
    p_register this name (Record_ r) now w
    = (Throw (TypeError "Cannot read properties of undefined (reading 'includes')"),
       w')
    ∧ heap w' !! r
      = Some (push_signature (make_signature kp (fullnames n) name sub now) sub)
    ∧ trace w' = trace w
    ∧ (∀ l key, child_of w' l key = child_of w l key)
    ∧ ∀ l, l ≠ r → heap w' !! l = heap w !! l.
Proof.
  intros Hthis Hkp Hks Hr. eexists. split.
  { by apply (p_register_record_undefined_keys w this n d kp name r sub now). }
  cbn [heap trace]. split; [apply lookup_insert_eq|]. split; [done|]. split.
  - intros l key.
    rewrite (child_of_push_signature (heap w) (trace w) l _ sub key r Hr).
    by destruct w.
  - intros l Hl. by rewrite lookup_insert_ne.
Qed.

(** X13. Registering something that is not a record, in a domain that has a
    key pair and a [keys] array, wraps it: a new [Name] is made, at a place
    no object was, with one full name per full name of the domain (that
    name, a slash, the registered name), the [_publicurls] of the thing or
    else its [_urls], no expiry and the one signature of this registration;
    the domain's table holds it under the name; and every other object is as
    it was. *)
Theorem p_register_wraps_into_name w this n d kp ks name publicurls urls now :
  heap w !! this = Some (Domain n d) →
  keypair d = Some kp →
  keys d = Some ks →
  let l := fresh (dom (heap w)) in
  let wrapped := Name {| fullnames := (λ fn, fn +:+ "/" +:+ name) <$> fullnames n;
                         _publicurls := or_urls publicurls urls;
                         expires := None; signatures := [] |} in
  ∃ w',
    p_register this name (Stored publicurls urls) now w = (Return (), w')
    ∧ heap w !! l = None
    ∧ heap w' !! l
      = Some (push_signature
                (make_signature kp (fullnames n) name wrapped now) wrapped)
    ∧ child_of w' this name = Some l
    ∧ ∀ l' , l' ≠ this → l' ≠ l → heap w' !! l' = heap w !! l'.
Proof.
  intros Hthis Hkp Hks l wrapped.
  assert (Hnew : heap w !! l = None).
  { apply not_elem_of_dom, is_fresh. }
  pose proof (fresh_not_allocated _ _ _ Hthis) as Hfresh. fold l in Hfresh.
  rewrite (p_register_stored _ _ n d) by done. fold l.
  change (Name _) with wrapped.
  match goal with
  | |- context [p_register _ _ _ _ ?w0] =>
      destruct (p_register_record_heap w0 this n d kp ks name l wrapped now)
        as (evs & ->); cbn [heap]
  end.
  { by rewrite lookup_insert_ne. }
  { done. }
  { done. }
  { apply lookup_insert_eq. }
  eexists. split; [done|]. split; [done|]. cbn zeta. cbn [heap].
  rewrite decide_False by done. split; [|split].
  - by rewrite lookup_insert_ne, lookup_insert_eq.
  - unfold child_of. cbn [heap]. rewrite lookup_insert_eq. cbn.
    apply lookup_insert_eq.
  - intros l' Hl1 Hl2. by rewrite !lookup_insert_ne.
Qed.

End MoreRegistration.

(** ** The payload determines what was signed *)

Lemma quote_head (x u : string) :
  JSON.quote x +:+ u = String JSON.dquote (JSON.escape x +:+ String JSON.dquote u).
Proof.
  unfold JSON.quote. by rewrite str_app_cons, str_app_assoc, str_app_cons.
Qed.

Lemma join_items_tail (x : string) (l : list string) (t : string) :
  JS.join "," (JSON.quote <$> (x :: l)) +:+ "]" +:+ t
  = JSON.quote x +:+ items_tail l t.
Proof.
  revert x. induction l as [|y l IH]; intros x; [done|].
  change (JSON.quote <$> x :: y :: l)
    with (JSON.quote x :: JSON.quote y :: (JSON.quote <$> l)).
  rewrite join_cons_cons.
  change (JSON.quote y :: (JSON.quote <$> l)) with (JSON.quote <$> y :: l).
  by rewrite !str_app_assoc, IH.
Qed.

Lemma items_tail_delimited (l l' : list string) (t t' : string) :
  items_tail l t = items_tail l' t' → l = l' ∧ t = t'.
Proof.
  revert l'. induction l as [|x l IH]; intros [|x' l'] Heq;
    cbn [items_tail] in Heq; try discriminate.
  - by apply (inj (String.app _)) in Heq as ->.
  - apply (inj (String.app _)), quote_delimited in Heq as [-> Heq].
    by apply IH in Heq as [-> ->].
Qed.

(** The elements of an array, up to the closing bracket, can be read back off
    the front of a string. *)
Lemma array_items_delimited (l l' : list string) (t t' : string) :
  JS.join "," (JSON.quote <$> l) +:+ "]" +:+ t
  = JS.join "," (JSON.quote <$> l') +:+ "]" +:+ t' →
  l = l' ∧ t = t'.
Proof.
  destruct l as [|x l], l' as [|x' l']; rewrite ?join_items_tail; intros Heq.
  - by apply (inj (String.app _)), (inj (String.app _)) in Heq as ->.
  - rewrite quote_head in Heq. discriminate.
  - rewrite quote_head in Heq. discriminate.
  - apply quote_delimited in Heq as [-> Heq].
    by apply items_tail_delimited in Heq as [-> ->].
Qed.

Lemma array_delimited (l l' : list string) (t t' : string) :
  JSON.array l +:+ t = JSON.array l' +:+ t' → l = l' ∧ t = t'.
Proof.
  unfold JSON.array. rewrite !str_app_assoc. intros Heq%(inj (String.app _)).
  rewrite ?str_app_assoc in Heq. by apply array_items_delimited.
Qed.

Lemma join_members_tail (m : string) (members : list string) :
  JS.join "," (m :: members) +:+ "}" = m +:+ members_tail members.
Proof.
  revert m. induction members as [|m' members IH]; intros m; [done|].
  by rewrite join_cons_cons, !str_app_assoc, IH.
Qed.

Lemma of_option_strs_inj (o o' : option (list string)) :
  JSON.of_option_strs o = JSON.of_option_strs o' → o = o'.
Proof. destruct o, o'; cbn; congruence. Qed.

Lemma of_option_str_inj (o o' : option string) :
  JSON.of_option_str o = JSON.of_option_str o' → o = o'.
Proof. destruct o, o'; cbn; congruence. Qed.

Lemma member_step (k k' x x' t t' : string) :
  "," +:+ (JSON.quote k +:+ ":" +:+ x) +:+ t
  = "," +:+ (JSON.quote k' +:+ ":" +:+ x') +:+ t' →
  k = k' ∧ x +:+ t = x' +:+ t'.
Proof.
  intros Heq%(inj (String.app _)). rewrite !str_app_assoc in Heq.
  apply quote_delimited in Heq as [-> Heq].
  by apply (inj (String.app _)) in Heq.
Qed.

(** The optional properties of the payload, from their serialisation. *)
Lemma optional_members_inj (K K' P P' : option (list string)) (E E' : option string) :
  members_tail (omap JSON.member
                  [("keys", JSON.of_option_strs K);
                   ("_publicurls", JSON.of_option_strs P);
                   ("expires", JSON.of_option_str E)])
  = members_tail (omap JSON.member
                    [("keys", JSON.of_option_strs K');
                     ("_publicurls", JSON.of_option_strs P');
                     ("expires", JSON.of_option_str E')]) →
  K = K' ∧ P = P' ∧ E = E'.
Proof.
  destruct K as [ks|], K' as [ks'|], P as [ps|], P' as [ps'|],
    E as [e|], E' as [e'|];
    cbn [omap list_omap JSON.of_option_strs JSON.of_option_str JSON.member
         JSON.serialize fst snd fmap option_fmap option_map members_tail];
    intros Heq; try discriminate;
    repeat match goal with
    | Heq : "," +:+ (JSON.quote _ +:+ ":" +:+ _) +:+ _ = _ |- _ =>
        apply member_step in Heq as [Hk Heq]; try discriminate Hk; clear Hk
    | Heq : JSON.array _ +:+ _ = JSON.array _ +:+ _ |- _ =>
        apply array_delimited in Heq as [-> Heq]
    | Heq : JSON.quote _ +:+ _ = JSON.quote _ +:+ _ |- _ =>
        apply quote_delimited in Heq as [-> Heq]
    end; try discriminate; done.
Qed.

Section MorePayload.
Context `{KeyPairOps}.

(** X14. The payload is an unambiguous encoding of what is signed: two
    payloads are equal only if they were made with the same date, domains and
    name, for records with the same [keys], [_publicurls] and [expires]. *)
Theorem signable_inj (o o' : obj) (domains domains' : list string)
    (name name' date date' : string) :
  _signable o domains name date = _signable o' domains' name' date' →
  date = date' ∧ domains = domains' ∧ name = name'
  ∧ obj_keys o = obj_keys o'
  ∧ _publicurls (name_fields o) = _publicurls (name_fields o')
  ∧ expires (name_fields o) = expires (name_fields o').
Proof.
  unfold _signable, JSON.stringify.
  set (opt := λ o : obj,
         omap JSON.member
           [("keys", JSON.of_option_strs (obj_keys o));
            ("_publicurls", JSON.of_option_strs (_publicurls (name_fields o)));
            ("expires", JSON.of_option_str (expires (name_fields o)))]).
  change (omap JSON.member
            [("date", JSON.Str date); ("domains", JSON.Strs domains);
             ("name", JSON.Str name);
             ("keys", JSON.of_option_strs (obj_keys o));
             ("_publicurls", JSON.of_option_strs (_publicurls (name_fields o)));
             ("expires", JSON.of_option_str (expires (name_fields o)))])
    with ((JSON.quote "date" +:+ ":" +:+ JSON.quote date)
          :: (JSON.quote "domains" +:+ ":" +:+ JSON.array domains)
          :: (JSON.quote "name" +:+ ":" +:+ JSON.quote name) :: opt o).
  change (omap JSON.member
            [("date", JSON.Str date'); ("domains", JSON.Strs domains');
             ("name", JSON.Str name');
             ("keys", JSON.of_option_strs (obj_keys o'));
             ("_publicurls", JSON.of_option_strs (_publicurls (name_fields o')));
             ("expires", JSON.of_option_str (expires (name_fields o')))])
    with ((JSON.quote "date" +:+ ":" +:+ JSON.quote date')
          :: (JSON.quote "domains" +:+ ":" +:+ JSON.array domains')
          :: (JSON.quote "name" +:+ ":" +:+ JSON.quote name') :: opt o').
  intros Heq%(inj (String.app _)).
  rewrite !join_members_tail in Heq. cbn [members_tail] in Heq.
  rewrite !str_app_assoc in Heq.
  apply quote_delimited in Heq as [_ Heq].
  apply (inj (String.app _)), quote_delimited in Heq as [<- Heq].
  apply (inj (String.app _)), quote_delimited in Heq as [_ Heq].
  apply (inj (String.app _)), array_delimited in Heq as [<- Heq].
  apply (inj (String.app _)), quote_delimited in Heq as [_ Heq].
  apply (inj (String.app _)), quote_delimited in Heq as [<- Heq].
  by apply optional_members_inj in Heq as (-> & -> & ->).
Qed.

End MorePayload.

(** ** More on verification *)

Section MoreVerification.
Context `{KeyPairOps}.

(** A domain with an empty [keys] array verifies nothing. *)
Lemma verify_signatures_no_keys n d name sub :
  keys d = Some [] → verify_signatures n d name sub = Return false.
Proof.
  intros Hkeys. rewrite (verify_signatures_defined n d []) by done.
  f_equal. apply not_true_is_false.
  intros (sig & _ & Hkey & _)%verifies_true.
  by apply not_elem_of_nil in Hkey.
Qed.

(** X20. [verify] on a domain whose [keys] is undefined: it returns false
    on a record that has no signature, and on a record that has one it
    throws the [TypeError] of reading [includes] of [undefined]; the world
    is as it was in both cases. *)
Theorem verify_without_keys w this n d name c sub :
  heap w !! this = Some (Domain n d) →
  keys d = None →
  heap w !! c = Some sub →
  verify this name c w
  = (match signatures (name_fields sub) with
     | [] => Return false
     | _ :: _ =>
         Throw (TypeError "Cannot read properties of undefined (reading 'includes')")
     end, w).
Proof.
  intros Hthis Hks Hc. rewrite (verify_body_run _ _ n d _ _ sub) by done.
  by rewrite verify_signatures_undefined.
Qed.

Section Correct.
Context `{!KeyPairCorrect}.

(** X16. [p_new] is what lets a new master domain verify its own
    registrations: with no keys ([keys] undefined, or an empty array),
    [verify] is true on no record, and with an empty array it is false on
    every record, whatever its signatures; once [p_new] has put the exported
    key of the domain's key pair in [keys], registering a record and then
    verifying it gives true. *)
Theorem p_new_keys_make_registrations_verify w this n d kp name r sub now :
  keypair d = Some kp →
  keys d = None ∨ keys d = Some [] →
  heap w !! this = Some (Domain n (p_new_keys true d)) →
  heap w !! r = Some sub →
  (∀ name' sub', verify_signatures n d name' sub' ≠ Return true)
  ∧ (keys d = Some [] →
     ∀ name' sub', verify_signatures n d name' sub' = Return false)
  ∧ ∃ w',
      p_register this name (Record_ r) now w = (Return (), w')
      ∧ verify this name r w' = (Return true, w').
Proof.
  intros Hkp Hkeys Hthis Hr. split; [|split].
  - intros name' sub'. destruct Hkeys as [Hkeys|Hkeys].
    + rewrite verify_signatures_undefined by done.
      by destruct (signatures (name_fields sub')).
    + by rewrite verify_signatures_no_keys.
  - intros Hempty name' sub'. by apply verify_signatures_no_keys.
  - assert (Hnew : keypair (p_new_keys true d) = Some kp
                   ∧ keys (p_new_keys true d) = Some [signingexport kp]).
    { unfold p_new_keys. rewrite Hkp. by destruct Hkeys as [->| ->]. }
    destruct Hnew as [Hkp' Hkeys'].
    destruct (p_register_record_verifies w this n (p_new_keys true d) kp
                [signingexport kp] name r sub now Hthis Hkp' Hkeys')
      as (w' & Hrun & _ & Hver); [|done|].
    + apply list_elem_of_here.
    + by exists w'.
Qed.

End Correct.

Context `{!KeyPairBinding}.

Lemma verifies_false_when_changed n ks name' sub F name signed :
  signed_as ks F name signed sub →
  fullnames n ≠ F ∨ name' ≠ name ∨ obj_keys sub ≠ obj_keys signed
  ∨ _publicurls (name_fields sub) ≠ _publicurls (name_fields signed)
  ∨ expires (name_fields sub) ≠ expires (name_fields signed) →
  verifies n ks name' sub = false.
Proof.
  intros Hsigned Hchanged. apply not_true_is_false.
  intros (sig & Hin & Hkey & Hver)%verifies_true.
  unfold signed_as in Hsigned. rewrite Forall_forall in Hsigned.
  destruct (Hsigned sig Hin Hkey) as [kp Hsig]. rewrite Hsig in Hver.
  cbn in Hver.
  apply verify_binds_payload, signable_inj in Hver
    as (_ & Hd & Hn & Hk & Hp & He).
  destruct Hchanged as [?|[?|[?|[?|?]]]]; congruence.
Qed.

(** X15. A signature stands for everything in the payload, given a binding
    signature scheme: when every signature on a record by one of the keys of
    a domain (its [keys] array [ks]) was made for one name and one state of
    the record, [verify] is false under any other name, and false once the
    record's [keys], [_publicurls] or [expires] is no longer what was
    signed. *)
Theorem verify_false_when_signed_data_differs w this n d ks name' c sub name signed :
  heap w !! this = Some (Domain n d) →
  keys d = Some ks →
  heap w !! c = Some sub →
  signed_as ks (fullnames n) name signed sub →
  name' ≠ name ∨ obj_keys sub ≠ obj_keys signed
  ∨ _publicurls (name_fields sub) ≠ _publicurls (name_fields signed)
  ∨ expires (name_fields sub) ≠ expires (name_fields signed) →
  verify this name' c w = (Return false, w).
Proof.
  intros Hthis Hks Hc Hsigned Hchanged.
  rewrite (verify_run _ _ n d ks _ _ sub) by done.
  rewrite (verifies_false_when_changed n ks name' sub (fullnames n)
             name signed); [done|done|by right].
Qed.

End MoreVerification.

(** ** More sample runs *)

Section MoreSamples.
#[local] Existing Instance toy_keypair.

Lemma mergeTypedArraysUnsafe_same_kind_witness :
  utils.mergeTypedArraysUnsafe (MoreExamples.bytes [1; 2]%Z)
    (MoreExamples.bytes [3]%Z)
  = utils.Done (MoreExamples.bytes [1; 2; 3]%Z).
Proof.
  refine (proj1 (mergeTypedArraysUnsafe_same_kind
                   (MoreExamples.bytes [1; 2]%Z) (MoreExamples.bytes [3]%Z)
                   (MoreExamples.bytes [255]%Z) _ _ _ eq_refl eq_refl));
    unfold utils.well_formed; cbn; repeat constructor; lia.
Defined.

Lemma p_resolve_whole_path_first_witness :
  p_resolve 1 "a/b" false Examples.w_nested
  = (Return (Some 2%positive),
     with_trace Examples.w_nested [TableGet 1 "a/b"]).
Proof.
  refine (p_resolve_whole_path_first Examples.w_nested 1
            (Examples.unsigned "/")
            (Examples.master "kroot" {[ "a/b" := 2%positive ]})
            "a/b" false 2 _ _); reflexivity.
Defined.

Lemma p_resolve_remainder_in_child_witness :
  p_resolve 1 ("a/b" +:+ "/" +:+ "c") false Examples.w_nested
  = p_resolve 2 "c" false
      (with_trace Examples.w_nested [TableGet 1 "a/b/c"; TableGet 1 "a/b"]).
Proof.
  refine (p_resolve_remainder_in_child Examples.w_nested 1
            (Examples.unsigned "/")
            (Examples.master "kroot" {[ "a/b" := 2%positive ]})
            "a/b" "c" false 2 _ _ _ _); reflexivity.
Defined.

Lemma p_resolve_below_name_throws_witness :
  (p_resolve 1 ("a" +:+ "/" +:+ "x") false Examples.w_child).1
  = Throw (TypeError "p_resolve is not a function").
Proof.
  refine (p_resolve_below_name_throws Examples.w_child 1
            (Examples.unsigned "/")
            (Examples.master "kroot" {[ "a" := 2%positive ]})
            "a" "x" false 2
            {| fullnames := ["/a"]; _publicurls := Some ["loc://a"];
               expires := None; signatures := [] |} _ _ _ _ _); reflexivity.
Defined.

Lemma p_register_then_resolve_witness :
  ∃ w',
    p_register 1 "a/b" (Record_ 2) "2018-01-01T00:00:00.000Z" Examples.w_fresh
    = (Return (), w')
    ∧ (p_resolve 1 "a/b" false w').1 = Return (Some 2%positive).
Proof.
  refine (p_register_then_resolve Examples.w_fresh 1
            (Examples.unsigned "/") (Examples.master "kroot" ∅) "kroot" ["kroot"]
            "a/b" (Record_ 2) "2018-01-01T00:00:00.000Z" false _ _ _ _).
  - reflexivity.
  - reflexivity.
  - reflexivity.
  - intros l [= <-]. eexists. reflexivity.
Defined.


Lemma p_register_without_keypair_throws_witness :
  ∃ w',
    p_register 1 "item" (Record_ 2) "2018-01-01T00:00:00.000Z"
      MoreExamples.w_public
    = (Throw (TypeError "keypair is undefined"), w')
    ∧ trace w' = []
    ∧ ∀ l o, heap MoreExamples.w_public !! l = Some o → heap w' !! l = Some o.
Proof.
  refine (p_register_without_keypair_throws MoreExamples.w_public 1
            (Examples.unsigned "/") MoreExamples.public "item" (Record_ 2)
            "2018-01-01T00:00:00.000Z" _ _ _).
  - reflexivity.
  - reflexivity.
  - intros l [= <-]. eexists. reflexivity.
Defined.

Lemma p_register_wraps_into_name_witness :
  ∃ w',
    p_register 1 "item1" (Stored None (Some ["loc://item1"]))
      "2018-01-01T00:00:00.000Z" Examples.w_root = (Return (), w')
    ∧ child_of w' 1 "item1" = Some (fresh (dom (heap Examples.w_root))).
Proof.
  destruct (p_register_wraps_into_name Examples.w_root 1
              (Examples.unsigned "/") (Examples.master "kroot" ∅) "kroot" ["kroot"]
              "item1" None (Some ["loc://item1"]) "2018-01-01T00:00:00.000Z"
              eq_refl eq_refl eq_refl)
    as (w' & Hrun & _ & _ & Hchild & _).
  by exists w'.
Defined.

Lemma signable_inj_witness :
  "2018-01-01T00:00:00.000Z" = "2018-01-01T00:00:00.000Z"
  ∧ ["/"] = ["/"] ∧ "item" = "item"
  ∧ obj_keys Examples.signed_item
    = obj_keys (Examples.new_name "/elsewhere" ["loc://item"])
  ∧ _publicurls (name_fields Examples.signed_item)
    = _publicurls (name_fields (Examples.new_name "/elsewhere" ["loc://item"]))
  ∧ expires (name_fields Examples.signed_item)
    = expires (name_fields (Examples.new_name "/elsewhere" ["loc://item"])).
Proof.
  refine (signable_inj Examples.signed_item
            (Examples.new_name "/elsewhere" ["loc://item"])
            ["/"] ["/"] "item" "item"
            "2018-01-01T00:00:00.000Z" "2018-01-01T00:00:00.000Z" _).
  reflexivity.
Defined.

Lemma verify_false_when_signed_data_differs_witness :
  verify 1 "other" 2 Examples.w_signed = (Return false, Examples.w_signed).
Proof.
  refine (verify_false_when_signed_data_differs (H0:=toy_keypair_binding)
            Examples.w_signed 1
            (Examples.unsigned "/")
            (Examples.master "kroot" {[ "item" := 2%positive ]}) ["kroot"]
            "other" 2 Examples.signed_item "item"
            (Examples.new_name "/item" ["loc://item"]) _ _ _ _ _).
  - reflexivity.
  - reflexivity.
  - reflexivity.
  - unfold signed_as. constructor; [|constructor].
    intros _. exists "kroot". reflexivity.
  - left. vm_compute. discriminate.
Defined.

Lemma p_new_keys_make_registrations_verify_witness :
  ∃ w',
    p_register 1 "item" (Record_ 2) "2018-01-01T00:00:00.000Z"
      MoreExamples.w_new = (Return (), w')
    ∧ verify 1 "item" 2 w' = (Return true, w').
Proof.
  refine (proj2 (proj2 (p_new_keys_make_registrations_verify
                   (H0:=toy_keypair_correct) MoreExamples.w_new 1
                   (Examples.unsigned "/") MoreExamples.keyless "kroot"
                   "item" 2 (Examples.new_name "/item" ["loc://item"])
                   "2018-01-01T00:00:00.000Z" _ _ _ _)));
    [reflexivity|by right|reflexivity..].
Defined.

Lemma verify_without_keys_witness :
  verify 1 "item" 2 Examples.w_no_keys
  = (Throw (TypeError "Cannot read properties of undefined (reading 'includes')"),
     Examples.w_no_keys).
Proof.
  refine (verify_without_keys Examples.w_no_keys 1 (Examples.unsigned "/")
            (Examples.no_keys {[ "item" := 2%positive ]}) "item" 2
            Examples.signed_item _ _ _); reflexivity.
Defined.

Lemma p_register_without_keys_throws_after_signing_witness :
  ∃ w',
    p_register 1 "again" (Record_ 2) "2018-01-02T00:00:00.000Z"
      Examples.w_no_keys
    = (Throw (TypeError "Cannot read properties of undefined (reading 'includes')"),
       w')
    ∧ length ∘ signatures ∘ name_fields <$> heap w' !! 2%positive = Some 2
    ∧ child_of w' 1 "again" = None.
Proof.
  destruct (p_register_without_keys_throws_after_signing Examples.w_no_keys 1
              (Examples.unsigned "/")
              (Examples.no_keys {[ "item" := 2%positive ]}) "kroot"
              "again" 2 Examples.signed_item "2018-01-02T00:00:00.000Z"
              eq_refl eq_refl eq_refl eq_refl)
    as (w' & Hrun & Hr & _ & Hchild & _).
  exists w'. split; [done|]. rewrite Hr, Hchild. by split.
Defined.

End MoreSamples.

(** ** Table writes and several domains *)

Section MoreTables.
Context `{KeyPairOps}.


Context `{!KeyPairCorrect}.

(** X18. A record registered under two domains verifies under both: after
    [p_register] by one domain and then by another (or by the same one under
    another name), each of which has the exported key of its key pair among
    its [keys], [verify] by either domain under its own name returns true. *)
Theorem p_register_twice_verifies_under_both
    w this1 n1 d1 kp1 ks1 name1 now1 this2 n2 d2 kp2 ks2 name2 now2 r sub :
  heap w !! this1 = Some (Domain n1 d1) → keypair d1 = Some kp1 →
  keys d1 = Some ks1 → signingexport kp1 ∈ ks1 →
  heap w !! this2 = Some (Domain n2 d2) → keypair d2 = Some kp2 →
  keys d2 = Some ks2 → signingexport kp2 ∈ ks2 →
  heap w !! r = Some sub →
  ∃ w',
    (p_register this1 name1 (Record_ r) now1;;
     p_register this2 name2 (Record_ r) now2) w = (Return (), w')
    ∧ verify this1 name1 r w' = (Return true, w')
    ∧ verify this2 name2 r w' = (Return true, w').
Proof.
  intros Hthis1 Hkp1 Hks1 Hkey1 Hthis2 Hkp2 Hks2 Hkey2 Hr.
  destruct (p_register_record_run w this1 n1 d1 kp1 ks1 name1 r sub now1
              Hthis1 Hkp1 Hks1 Hr)
    as (w1 & n1' & d1' & sub1 & Hrun1 & Hthis1' & Hr1 & Hev1 & Hev_sub1 & _).
  pose proof (appended_signature_verifies n1 d1 n1' d1' kp1 ks1 name1 sub sub1
                now1 _ Hkey1 Hev1 Hev_sub1) as Hok1.
  destruct (p_register_record_evolves w this1 n1 d1 kp1 ks1 name1 r sub now1
              Hthis1 Hkp1 Hks1 Hr) as (w1_ & Hrun1_ & Hobjs1 & _).
  rewrite Hrun1 in Hrun1_. injection Hrun1_ as <-.
  destruct (Hobjs1 this2 _ Hthis2) as (o2 & Hthis2' & Hev2).
  destruct o2 as [|n2' d2']; [by destruct Hev2 as (_ & _ & _ & _ & ?)|].
  destruct (Hev2) as (_ & _ & _ & _ & Hkeys2 & Hkp2' & _).
  rewrite Hkp2 in Hkp2'. rewrite Hks2 in Hkeys2.
  destruct (p_register_record_run w1 this2 n2' d2' kp2 ks2 name2 r sub1 now2
              Hthis2' Hkp2' Hkeys2 Hr1)
    as (w' & n2'' & d2'' & sub2 & Hrun2 & Hthis2'' & Hr2 & Hev2' & Hev_sub2 & _).
  pose proof (appended_signature_verifies n2' d2' n2'' d2'' kp2 ks2 name2 sub1
                sub2 now2 _ Hkey2 Hev2' Hev_sub2) as Hok2.
  destruct (p_register_record_evolves w1 this2 n2' d2' kp2 ks2 name2 r sub1 now2
              Hthis2' Hkp2' Hkeys2 Hr1) as (w'_ & Hrun2_ & Hobjs2 & _).
  rewrite Hrun2 in Hrun2_. injection Hrun2_ as <-.
  destruct (Hobjs2 this1 _ Hthis1') as (o1 & Hthis1'' & Hev1').
  destruct (evolves_domain _ _ _ _ Hev1') as (n1'' & d1'' & -> & Hfn & Hkeys).
  assert (Hks1' : keys d1' = Some ks1).
  { destruct Hev1 as (_ & _ & _ & _ & -> & _). done. }
  assert (Hks2'' : keys d2'' = Some ks2).
  { destruct Hev2' as (_ & _ & _ & _ & -> & _). done. }
  exists w'. split.
  - unfold mbind, M_bind. by rewrite Hrun1.
  - split.
    + rewrite (verify_run _ _ n1'' d1'' ks1 _ _ sub2) by congruence.
      by rewrite (verifies_evolves n1' n1'' ks1 name1 _ sub1 sub2
                    Hfn Hev_sub2).
    + by rewrite (verify_run _ _ n2'' d2'' ks2 _ _ sub2), Hok2.
Qed.

End MoreTables.

Section MoreTableSamples.
#[local] Existing Instance toy_keypair.


Lemma p_register_twice_verifies_under_both_witness :
  ∃ w',
    (p_register 1 "c" (Record_ 3) "2018-01-01T00:00:00.000Z";;
     p_register 2 "c" (Record_ 3) "2018-01-02T00:00:00.000Z") Examples.w_fresh
    = (Return (), w')
    ∧ verify 1 "c" 3 w' = (Return true, w')
    ∧ verify 2 "c" 3 w' = (Return true, w').
Proof.
  refine (p_register_twice_verifies_under_both (H0:=toy_keypair_correct)
            Examples.w_fresh
            1 (Examples.unsigned "/") (Examples.master "kroot" ∅) "kroot"
            ["kroot"] "c" "2018-01-01T00:00:00.000Z"
            2 (Examples.unsigned "/a/b") (Examples.master "kab" ∅) "kab"
            ["kab"] "c" "2018-01-02T00:00:00.000Z"
            3 (Examples.new_name "/a/b/c" ["loc://c"]) _ _ _ _ _ _ _ _ _);
    try reflexivity; vm_compute; constructor.
Defined.

End MoreTableSamples.
